(** * flashlight/config: the cloud configuration core

    A shallow embedding of [config.go] (package [config] of flashlight):
    the conditional fetch with its per-URL ETag cache, the polling wait,
    the merge of a fetched document into a [Config] ([updateFrom]), the
    defaulting pass ([ApplyDefaults]), the first-run bootstrap race, the
    search for the configuration file of an earlier version
    ([copyGoodOldConfig]), the configuration directory ([InConfigDir]), the
    default fallback by territory and the major version of a version
    string.

    Conventions of the embedding.
    - A Go [int]/[int64] is a [Z]; the one computed value
      ([cloudPollSleepTime]) has its 64-bit wrap-around written out.
    - A Go [string] is a [string], a [[]byte] a [list byte].
    - A slice or map value that may be [nil] is an [option]: [None] is
      [nil], [Some []] the empty non-nil slice.  A pointer to a struct is an
      [option] of the struct it points to; the structs reached from one
      [Config] are owned by it (no two fields share a pointee).
    - A method with a pointer receiver is a computation in the monad
      [M S]: it reads and writes the state [S] the receiver points to and
      either returns or panics (the Go runtime panic of a nil dereference).
    - Go's [(value, error)] results are pairs whose error is an [option]. *)

From Stdlib Require Import ZArith Strings.Byte Sorting.Sorted.
From stdpp Require Import base option list strings pretty gmap fin_maps.

Open Scope Z_scope.

(* ================================================================= *)
(** * Part I: the model *)
(* ================================================================= *)

(** ** Go runtime: results, panics, state *)

(** A call returns, or panics; a panic unwinds the call, and the state it
    leaves behind is not looked at. *)
Inductive Res (A : Type) : Type :=
| Ok (a : A)
| Panic (msg : string).
Arguments Ok {A} a.
Arguments Panic {A} msg.

Definition nil_dereference : string :=
  "runtime error: invalid memory address or nil pointer dereference".

(** A computation over a mutable state [S]. *)
Definition M (S A : Type) : Type := S → Res (A * S).

Definition ret {S A} (a : A) : M S A := λ s, Ok (a, s).

Definition bind {S A B} (m : M S A) (k : A → M S B) : M S B :=
  λ s, match m s with
       | Ok (a, s') => k a s'
       | Panic msg => Panic msg
       end.

Definition get {S} : M S S := λ s, Ok (s, s).
Definition put {S} (s : S) : M S unit := λ _, Ok (tt, s).
Definition modify {S} (f : S → S) : M S unit := λ s, Ok (tt, f s).
Definition panic {S A} (msg : string) : M S A := λ _, Panic msg.

#[global] Instance M_ret {S} : MRet (M S) := λ A, @ret S A.
#[global] Instance M_bind {S} : MBind (M S) := λ A B k m, @bind S A B m k.

(** [if c { body }]: the condition is itself a computation, since
    evaluating it may dereference a pointer. *)
Definition when_ {S} (c : M S bool) (body : M S unit) : M S unit :=
  b ← c; if b : bool then body else mret tt.

(** Go's [len] of a slice that may be nil, and the nil test. *)
Definition len {A} (s : option (list A)) : Z := Z.of_nat (length (default [] s)).
Definition len_map {V} (m : option (gmap string V)) : Z :=
  Z.of_nat (size (default ∅ m)).
Definition is_nil {A} (p : option A) : bool :=
  match p with None => true | Some _ => false end.

(** A read of the state through [f]. *)
Definition gets {S A} (f : S → A) : M S A := λ s, Ok (f s, s).

(** ** Errors built by this package *)

Inductive error : Type :=
| ErrConstructRequest (url cause : string)
    (* "Unable to construct request for cloud config at %s: %s" *)
| ErrFetch (url cause : string)
    (* "Unable to fetch cloud config at %s: %s" *)
| ErrUnexpectedStatus (code : Z)
    (* "Unexpected response status: %d" *)
| ErrOpenGzip (cause : string)
    (* "Unable to open gzip reader: %s" *)
| ErrForeign (cause : string)
    (* an error of another package handed on as it is (ioutil.ReadAll) *)
| ErrUnmarshal (cause : string)
    (* "Unable to unmarshal YAML for update: %s" *).

(** ** Constants *)

(** [1 * time.Minute], in nanoseconds. *)
Definition CloudConfigPollInterval : Z := 60 * 1000000000.
Definition cloudflare : string := "cloudflare".
Definition etag : string := "X-Lantern-Etag".
Definition ifNoneMatch : string := "X-Lantern-If-None-Match".
Definition defaultCloudConfigUrl : string :=
  "http://d2wi0vwulmtn99.cloudfront.net/cloud.yaml.gz".

(** ** net/http as this package sees it *)

Record Request : Type := mkRequest {
  req_Method : string;
  req_URL : string;
  req_Header : gmap string string;
  req_Close : bool
}.

Record Response : Type := mkResponse {
  StatusCode : Z;
  resp_Header : gmap string string;
  Body : list byte
}.

(** [h.Get(key)]: the value, or the empty string when there is none. *)
Definition Header_Get (h : gmap string string) (key : string) : string :=
  default "" (h !! key).

Definition Header_Set (key value : string) (req : Request) : Request :=
  {| req_Method := req_Method req; req_URL := req_URL req;
     req_Header := <[key := value]> (req_Header req);
     req_Close := req_Close req |}.

Definition set_Close (b : bool) (req : Request) : Request :=
  {| req_Method := req_Method req; req_URL := req_URL req;
     req_Header := req_Header req; req_Close := b |}.

(** [client.Do]: the transport answers a request with a response or fails. *)
Definition HttpClient : Type := Request → string + Response.

(** What [gzip.NewReader] followed by [ioutil.ReadAll] does with a body:
    the header is refused, or the stream is read, to its end or up to an
    error ([ReadAll] returns the bytes read so far with the error). *)
Inductive GzipResult : Type :=
| GzHeaderError (cause : string)
| GzRead (data : list byte) (err : option string).

(** The collaborators outside this file.  [url_parse_error] is the
    failure of [http.NewRequest] on a URL it cannot parse. *)
Class Net : Type := {
  url_parse_error : string → option string;
  gunzip : list byte → GzipResult
}.

(** ** The ETag cache and the conditional fetch *)

(** [lastCloudConfigETag]: reading a URL never stored gives [""]. *)
Abbreviation ETags := (gmap string string).

Definition etag_of (cache : ETags) (url : string) : string :=
  default "" (cache !! url).

Definition http_NewRequest `{Net} (method url : string) : string + Request :=
  match url_parse_error url with
  | Some err => inl err
  | None => inr {| req_Method := method; req_URL := url;
                   req_Header := ∅; req_Close := false |}
  end.

Definition readConfigResponse `{Net} (url : string) (resp : Response)
  : M ETags (option (list byte) * option error) :=
  if StatusCode resp =? 304 then
    mret (None, None)
  else if negb (StatusCode resp =? 200) then
    mret (None, Some (ErrUnexpectedStatus (StatusCode resp)))
  else
    modify (λ cache, <[url := Header_Get (resp_Header resp) etag]> cache) ;;
    match gunzip (Body resp) with
    | GzHeaderError err => mret (None, Some (ErrOpenGzip err))
    | GzRead data err => mret (Some data, ErrForeign <$> err)
    end.

Definition fetchCloudConfig `{Net} (client : HttpClient) (url authToken : string)
  : M ETags (option (list byte) * option error) :=
  match http_NewRequest "GET" url with
  | inl err => mret (None, Some (ErrConstructRequest url err))
  | inr req =>
    cache ← get;
    let req :=
      if negb (etag_of cache url =? "")%string
      then Header_Set ifNoneMatch (etag_of cache url) req else req in
    let req :=
      if negb (authToken =? "")%string
      then Header_Set "X-LANTERN-AUTH-TOKEN" authToken req else req in
    let req := Header_Set "Cache-Control" "no-cache" req in
    let req := set_Close true req in
    match client req with
    | inl err => mret (None, Some (ErrFetch url err))
    | inr resp => readConfigResponse url resp
    end
  end.

(** ** The polling wait *)

(** Two's-complement wrap of an [int64] result. *)
Definition wrap64 (z : Z) : Z := (z + 2 ^ 63) mod 2 ^ 64 - 2 ^ 63.

(** [cfg.cloudPollSleepTime()], with [draw] the value
    [rand.Int63n(CloudConfigPollInterval.Nanoseconds())] returns. *)
Definition cloudPollSleepTime (draw : Z) : Z :=
  wrap64 (CloudConfigPollInterval / 2 + draw).

(** ** The structs of the packages [config] imports *)

Module fronted.
(** Modelled from the spec: package [fronted] is not among the sources.
    A masquerade is one front-domain/IP pair of a masquerade set; this file
    only stores masquerades, so the pair is kept as an uninterpreted
    token. *)
Inductive Masquerade : Type := MasqueradeToken (token : nat).
End fronted.

Module server.
(** Modelled from the spec: package [server] is not among the sources.
    The nested server sub-configuration is never looked into by this file;
    its content is an uninterpreted token. *)
Inductive ServerConfig : Type := ServerConfigToken (token : nat).
End server.

Module statreporter.
(** Modelled from the spec: package [statreporter] is not among the
    sources.  The stats-reporting sub-configuration, with the one field
    (the reporting endpoint) that [ApplyDefaults] fills. *)
Record Config : Type := mkConfig { StatshubAddr : string }.
Definition zero : Config := {| StatshubAddr := "" |}.
Definition set_StatshubAddr (v : string) (_ : Config) : Config :=
  {| StatshubAddr := v |}.
End statreporter.

Module proxiedsites.
(** Modelled from the spec: package [proxiedsites] is not among the
    sources.  The proxied-sites policy: user-local additions and deletions
    plus a cloud-provided list, as [ApplyDefaults] builds it. *)
Record Delta : Type := mkDelta {
  Additions : option (list string);
  Deletions : option (list string)
}.
Record Config : Type := mkConfig {
  Delta_ : option Delta;
  Cloud : option (list string)
}.
Definition zero : Config := {| Delta_ := None; Cloud := None |}.
Definition set_Cloud (v : option (list string)) (c : Config) : Config :=
  {| Delta_ := Delta_ c; Cloud := v |}.
End proxiedsites.

Module client.
(** Modelled from the spec: package [client] is not among the sources.
    A fronted server, with the fields [applyClientDefaults] names. *)
Record FrontedServerInfo : Type := mkFrontedServerInfo {
  Host : string;
  Port : Z;
  PoolSize : Z;
  MasqueradeSet : string;
  MaxMasquerades : Z;
  QOS : Z;
  Weight : Z;
  Trusted : bool;
  RedialAttempts : Z
}.
(** Modelled from the spec: a chained server is an address and an optional
    auth token ([s.Addr], [s.AuthToken] in [bootstrap]). *)
Record ChainedServerInfo : Type := mkChainedServerInfo {
  Addr : string;
  AuthToken : string
}.
(** Modelled from the spec: the client sub-configuration (masquerade sets,
    fronted-server list, chained-server mapping keyed by identifier).  The
    slice holds pointers: an element is [None] when the pointer is nil. *)
Record ClientConfig : Type := mkClientConfig {
  FrontedServers : option (list (option FrontedServerInfo));
  ChainedServers : option (gmap string ChainedServerInfo);
  MasqueradeSets : option (gmap string (list fronted.Masquerade))
}.
Definition zero : ClientConfig :=
  {| FrontedServers := None; ChainedServers := None; MasqueradeSets := None |}.
Definition set_FrontedServers v (c : ClientConfig) : ClientConfig :=
  {| FrontedServers := v; ChainedServers := ChainedServers c;
     MasqueradeSets := MasqueradeSets c |}.
Definition set_ChainedServers v (c : ClientConfig) : ClientConfig :=
  {| FrontedServers := FrontedServers c; ChainedServers := v;
     MasqueradeSets := MasqueradeSets c |}.
Definition set_MasqueradeSets v (c : ClientConfig) : ClientConfig :=
  {| FrontedServers := FrontedServers c; ChainedServers := ChainedServers c;
     MasqueradeSets := v |}.
Definition set_QOS v (s : FrontedServerInfo) : FrontedServerInfo :=
  {| Host := Host s; Port := Port s; PoolSize := PoolSize s;
     MasqueradeSet := MasqueradeSet s; MaxMasquerades := MaxMasquerades s;
     QOS := v; Weight := Weight s; Trusted := Trusted s;
     RedialAttempts := RedialAttempts s |}.
Definition set_Weight v (s : FrontedServerInfo) : FrontedServerInfo :=
  {| Host := Host s; Port := Port s; PoolSize := PoolSize s;
     MasqueradeSet := MasqueradeSet s; MaxMasquerades := MaxMasquerades s;
     QOS := QOS s; Weight := v; Trusted := Trusted s;
     RedialAttempts := RedialAttempts s |}.
Definition set_RedialAttempts v (s : FrontedServerInfo) : FrontedServerInfo :=
  {| Host := Host s; Port := Port s; PoolSize := PoolSize s;
     MasqueradeSet := MasqueradeSet s; MaxMasquerades := MaxMasquerades s;
     QOS := QOS s; Weight := Weight s; Trusted := Trusted s;
     RedialAttempts := v |}.
End client.

(** ** [Config] *)

(** CA represents a certificate authority.  [TrustedCAs] is a slice of
    pointers to CAs, which the functions modelled here store and never
    follow; its elements are kept as the values pointed to.  The same holds
    for the values of the chained-server map and of the masquerade sets. *)
Record CA : Type := mkCA {
  CommonName : string;
  Cert : string
}.

Record Config : Type := mkConfig {
  Version : Z;
  CloudConfig : string;
  CloudConfigCA : string;
  Addr : string;
  Role : string;
  InstanceId : string;
  CpuProfile : string;
  MemProfile : string;
  UIAddr : string;
  AutoReport : option bool;
  AutoLaunch : option bool;
  Stats : option statreporter.Config;
  Server : option server.ServerConfig;
  Client : option client.ClientConfig;
  ProxiedSites : option proxiedsites.Config;
  TrustedCAs : option (list CA)
}.

(** [&Config{}], what [EmptyConfig] hands to the manager. *)
Definition emptyConfig : Config :=
  {| Version := 0; CloudConfig := ""; CloudConfigCA := ""; Addr := "";
     Role := ""; InstanceId := ""; CpuProfile := ""; MemProfile := "";
     UIAddr := ""; AutoReport := None; AutoLaunch := None; Stats := None;
     Server := None; Client := None; ProxiedSites := None;
     TrustedCAs := None |}.

(** Assignments to one field. *)
Definition set_CloudConfig v (c : Config) : Config :=
  mkConfig (Version c) v (CloudConfigCA c) (Addr c) (Role c) (InstanceId c)
    (CpuProfile c) (MemProfile c) (UIAddr c) (AutoReport c) (AutoLaunch c)
    (Stats c) (Server c) (Client c) (ProxiedSites c) (TrustedCAs c).
Definition set_Addr v (c : Config) : Config :=
  mkConfig (Version c) (CloudConfig c) (CloudConfigCA c) v (Role c) (InstanceId c)
    (CpuProfile c) (MemProfile c) (UIAddr c) (AutoReport c) (AutoLaunch c)
    (Stats c) (Server c) (Client c) (ProxiedSites c) (TrustedCAs c).
Definition set_Role v (c : Config) : Config :=
  mkConfig (Version c) (CloudConfig c) (CloudConfigCA c) (Addr c) v (InstanceId c)
    (CpuProfile c) (MemProfile c) (UIAddr c) (AutoReport c) (AutoLaunch c)
    (Stats c) (Server c) (Client c) (ProxiedSites c) (TrustedCAs c).
Definition set_InstanceId v (c : Config) : Config :=
  mkConfig (Version c) (CloudConfig c) (CloudConfigCA c) (Addr c) (Role c) v
    (CpuProfile c) (MemProfile c) (UIAddr c) (AutoReport c) (AutoLaunch c)
    (Stats c) (Server c) (Client c) (ProxiedSites c) (TrustedCAs c).
Definition set_UIAddr v (c : Config) : Config :=
  mkConfig (Version c) (CloudConfig c) (CloudConfigCA c) (Addr c) (Role c)
    (InstanceId c) (CpuProfile c) (MemProfile c) v (AutoReport c) (AutoLaunch c)
    (Stats c) (Server c) (Client c) (ProxiedSites c) (TrustedCAs c).
Definition set_AutoReport v (c : Config) : Config :=
  mkConfig (Version c) (CloudConfig c) (CloudConfigCA c) (Addr c) (Role c)
    (InstanceId c) (CpuProfile c) (MemProfile c) (UIAddr c) v (AutoLaunch c)
    (Stats c) (Server c) (Client c) (ProxiedSites c) (TrustedCAs c).
Definition set_AutoLaunch v (c : Config) : Config :=
  mkConfig (Version c) (CloudConfig c) (CloudConfigCA c) (Addr c) (Role c)
    (InstanceId c) (CpuProfile c) (MemProfile c) (UIAddr c) (AutoReport c) v
    (Stats c) (Server c) (Client c) (ProxiedSites c) (TrustedCAs c).
Definition set_Stats v (c : Config) : Config :=
  mkConfig (Version c) (CloudConfig c) (CloudConfigCA c) (Addr c) (Role c)
    (InstanceId c) (CpuProfile c) (MemProfile c) (UIAddr c) (AutoReport c)
    (AutoLaunch c) v (Server c) (Client c) (ProxiedSites c) (TrustedCAs c).
Definition set_Client v (c : Config) : Config :=
  mkConfig (Version c) (CloudConfig c) (CloudConfigCA c) (Addr c) (Role c)
    (InstanceId c) (CpuProfile c) (MemProfile c) (UIAddr c) (AutoReport c)
    (AutoLaunch c) (Stats c) (Server c) v (ProxiedSites c) (TrustedCAs c).
Definition set_ProxiedSites v (c : Config) : Config :=
  mkConfig (Version c) (CloudConfig c) (CloudConfigCA c) (Addr c) (Role c)
    (InstanceId c) (CpuProfile c) (MemProfile c) (UIAddr c) (AutoReport c)
    (AutoLaunch c) (Stats c) (Server c) (Client c) v (TrustedCAs c).
Definition set_TrustedCAs v (c : Config) : Config :=
  mkConfig (Version c) (CloudConfig c) (CloudConfigCA c) (Addr c) (Role c)
    (InstanceId c) (CpuProfile c) (MemProfile c) (UIAddr c) (AutoReport c)
    (AutoLaunch c) (Stats c) (Server c) (Client c) (ProxiedSites c) v.

(** Reads and writes through the pointers [cfg.Client], [cfg.ProxiedSites]
    and [cfg.Stats]: a nil pointer makes the access panic. *)
Definition Client_read {A} (f : client.ClientConfig → A) : M Config A :=
  λ cfg, match Client cfg with
         | Some c => Ok (f c, cfg)
         | None => Panic nil_dereference
         end.
Definition Client_write (f : client.ClientConfig → client.ClientConfig)
  : M Config unit :=
  λ cfg, match Client cfg with
         | Some c => Ok (tt, set_Client (Some (f c)) cfg)
         | None => Panic nil_dereference
         end.
Definition ProxiedSites_read {A} (f : proxiedsites.Config → A) : M Config A :=
  λ cfg, match ProxiedSites cfg with
         | Some p => Ok (f p, cfg)
         | None => Panic nil_dereference
         end.
Definition ProxiedSites_write (f : proxiedsites.Config → proxiedsites.Config)
  : M Config unit :=
  λ cfg, match ProxiedSites cfg with
         | Some p => Ok (tt, set_ProxiedSites (Some (f p)) cfg)
         | None => Panic nil_dereference
         end.
Definition Stats_read {A} (f : statreporter.Config → A) : M Config A :=
  λ cfg, match Stats cfg with
         | Some s => Ok (f s, cfg)
         | None => Panic nil_dereference
         end.
Definition Stats_write (f : statreporter.Config → statreporter.Config)
  : M Config unit :=
  λ cfg, match Stats cfg with
         | Some s => Ok (tt, set_Stats (Some (f s)) cfg)
         | None => Panic nil_dereference
         end.

(** ** The serialization codec *)

Module yaml.
(** Modelled from the spec: package [yaml] is not among the sources.  The
    codec deserializes a byte payload onto an existing typed structure,
    overwriting only the fields present in the payload.  A [Doc] is what a
    payload holds for a [Config]: each field is [Some] when the payload has
    it.  Nested structs are documents of their own, decoded onto the
    struct already there (a fresh zero struct when the pointer is nil). *)
Record StatsDoc : Type := mkStatsDoc {
  d_StatshubAddr : option string
}.
Record ProxiedSitesDoc : Type := mkProxiedSitesDoc {
  d_Delta : option proxiedsites.Delta;
  d_Cloud : option (list string)
}.
Record ClientDoc : Type := mkClientDoc {
  d_FrontedServers : option (list (option client.FrontedServerInfo));
  d_ChainedServers : option (gmap string client.ChainedServerInfo);
  d_MasqueradeSets : option (gmap string (list fronted.Masquerade))
}.
Record Doc : Type := mkDoc {
  d_Version : option Z;
  d_CloudConfig : option string;
  d_CloudConfigCA : option string;
  d_Addr : option string;
  d_Role : option string;
  d_InstanceId : option string;
  d_CpuProfile : option string;
  d_MemProfile : option string;
  d_UIAddr : option string;
  d_AutoReport : option bool;
  d_AutoLaunch : option bool;
  d_Stats : option StatsDoc;
  d_Server : option server.ServerConfig;
  d_Client : option ClientDoc;
  d_ProxiedSites : option ProxiedSitesDoc;
  d_TrustedCAs : option (list CA)
}.

(** The payload with no field at all. *)
Definition empty : Doc :=
  mkDoc None None None None None None None None None None None None None
        None None None.
Definition no_client : ClientDoc := mkClientDoc None None None.

(** Modelled from the spec: a scalar, or a pointer to a scalar, is
    overwritten when the payload has it and kept otherwise. *)
Definition over {A} (d : option A) (old : A) : A := default old d.
Definition over_ptr {A} (d : option A) (old : option A) : option A :=
  match d with Some v => Some v | None => old end.
(** Modelled from the spec: a sequence in the payload is decoded into a
    fresh slice, which replaces the one there. *)
Definition over_slice {A} (d : option (list A)) (old : option (list A))
  : option (list A) :=
  match d with Some l => Some l | None => old end.
(** Modelled from the spec: a mapping in the payload is decoded INTO the
    map already there: its keys are stored, the other keys of the map stay
    (which is why [updateFrom] empties the maps first). *)
Definition into_map {V} (d : option (gmap string V)) (old : option (gmap string V))
  : option (gmap string V) :=
  match d with Some m => Some (m ∪ default ∅ old) | None => old end.

(** Modelled from the spec: a nested struct is decoded field by field onto
    the struct the pointer leads to, a zero struct when it is nil. *)
Definition apply_Stats (d : StatsDoc) (old : option statreporter.Config)
  : option statreporter.Config :=
  let s := default statreporter.zero old in
  Some {| statreporter.StatshubAddr :=
            over (d_StatshubAddr d) (statreporter.StatshubAddr s) |}.

Definition apply_ProxiedSites (d : ProxiedSitesDoc) (old : option proxiedsites.Config)
  : option proxiedsites.Config :=
  let p := default proxiedsites.zero old in
  Some {| proxiedsites.Delta_ := over_ptr (d_Delta d) (proxiedsites.Delta_ p);
          proxiedsites.Cloud := over_slice (d_Cloud d) (proxiedsites.Cloud p) |}.

Definition apply_Client (d : ClientDoc) (old : option client.ClientConfig)
  : option client.ClientConfig :=
  let c := default client.zero old in
  Some {| client.FrontedServers :=
            over_slice (d_FrontedServers d) (client.FrontedServers c);
          client.ChainedServers :=
            into_map (d_ChainedServers d) (client.ChainedServers c);
          client.MasqueradeSets :=
            into_map (d_MasqueradeSets d) (client.MasqueradeSets c) |}.

Definition nested {D A} (apply : D → option A → option A) (d : option D)
  (old : option A) : option A :=
  match d with Some d => apply d old | None => old end.

(** Modelled from the spec: the payload decoded onto a [Config], field by
    field, only the fields present being written. *)
Definition apply (d : Doc) (c : Config) : Config :=
  {| Version := over (d_Version d) (Version c);
     CloudConfig := over (d_CloudConfig d) (CloudConfig c);
     CloudConfigCA := over (d_CloudConfigCA d) (CloudConfigCA c);
     Addr := over (d_Addr d) (Addr c);
     Role := over (d_Role d) (Role c);
     InstanceId := over (d_InstanceId d) (InstanceId c);
     CpuProfile := over (d_CpuProfile d) (CpuProfile c);
     MemProfile := over (d_MemProfile d) (MemProfile c);
     UIAddr := over (d_UIAddr d) (UIAddr c);
     AutoReport := over_ptr (d_AutoReport d) (AutoReport c);
     AutoLaunch := over_ptr (d_AutoLaunch d) (AutoLaunch c);
     Stats := nested apply_Stats (d_Stats d) (Stats c);
     Server := over_ptr (d_Server d) (Server c);
     Client := nested apply_Client (d_Client d) (Client c);
     ProxiedSites := nested apply_ProxiedSites (d_ProxiedSites d) (ProxiedSites c);
     TrustedCAs := over_slice (d_TrustedCAs d) (TrustedCAs c) |}.

(** Modelled from the spec: the grammar is the codec's own, and is not
    among the sources; [decode] gives the fields the codec takes from a
    payload and the error it reports, if any.  What a codec that reports
    an error has stored by then is the codec's; the statements that depend
    on it say what they rely on. *)
Class Codec : Type := { decode : list byte → Doc * option string }.

(** Modelled from the spec: [yaml.Unmarshal(in, out)] with [out] a
    [*Config] stores the decoded fields in [out] and returns the error. *)
Definition Unmarshal `{Codec} (input : list byte) : M Config (option string) :=
  λ out, let '(doc, err) := decode input in Ok (err, apply doc out).

End yaml.

(** ** [sort.Strings] *)

Fixpoint insert_sorted (x : string) (l : list string) : list string :=
  match l with
  | [] => [x]
  | y :: l' => if String.leb x y then x :: l else y :: insert_sorted x l'
  end.

(** [sort.Strings]: increasing order, strings compared byte by byte. *)
Definition sort_Strings (l : list string) : list string :=
  foldr insert_sorted [] l.

(** ** The merge: [updateFrom] *)

(** The keys of a [map[string]bool] in the order a [range] visits them.
    Go leaves that order unspecified; the order [map_to_list] gives stands
    for it. *)
Definition range_keys (m : gmap string bool) : list string :=
  (map_to_list m).*1.

(** The body of the [if len(updated.ProxiedSites.Cloud) > 0] block. *)
Definition dedup_sorted (cloud : list string) : list string :=
  let wlDomains := foldl (λ m domain, <[domain := true]> m) ∅ cloud in
  let fresh := foldl (λ acc domain, acc ++ [domain]) [] (range_keys wlDomains) in
  sort_Strings fresh.

Definition updateFrom `{yaml.Codec} (updateBytes : list byte)
  : M Config (option error) :=
  oldFrontedServers ← Client_read client.FrontedServers;
  oldChainedServers ← Client_read client.ChainedServers;
  oldMasqueradeSets ← Client_read client.MasqueradeSets;
  oldTrustedCAs ← gets TrustedCAs;
  Client_write (client.set_FrontedServers (Some [])) ;;
  Client_write (client.set_ChainedServers (Some ∅)) ;;
  Client_write (client.set_MasqueradeSets (Some ∅)) ;;
  modify (set_TrustedCAs (Some [])) ;;
  err ← yaml.Unmarshal updateBytes;
  match err with
  | Some err =>
    Client_write (client.set_FrontedServers oldFrontedServers) ;;
    Client_write (client.set_ChainedServers oldChainedServers) ;;
    Client_write (client.set_MasqueradeSets oldMasqueradeSets) ;;
    modify (set_TrustedCAs oldTrustedCAs) ;;
    mret (Some (ErrUnmarshal err))
  | None =>
    when_ (ProxiedSites_read (λ p, 0 <? len (proxiedsites.Cloud p)))
          (cloud ← ProxiedSites_read proxiedsites.Cloud;
           ProxiedSites_write
             (proxiedsites.set_Cloud (Some (dedup_sorted (default [] cloud))))) ;;
    mret None
  end.

(** The steps of [updateFrom], for the statements below: the receiver
    as the codec finds it, the four collections emptied; and the
    deduplication block run on the receiver the codec leaves. *)
Definition cleared (cfg : Config) : Config :=
  set_TrustedCAs (Some [])
    (set_Client
       ((λ _, client.mkClientConfig (Some []) (Some ∅) (Some ∅)) <$> Client cfg) cfg).

Definition deduplicated (cfg : Config) : Config :=
  match ProxiedSites cfg with
  | Some p =>
    if 0 <? len (proxiedsites.Cloud p)
    then set_ProxiedSites
           (Some (proxiedsites.set_Cloud
                    (Some (dedup_sorted (default [] (proxiedsites.Cloud p)))) p)) cfg
    else cfg
  | None => cfg
  end.

(** The order of [sort.Strings], and its strict part. *)
Definition string_le (s t : string) : Prop := String.leb s t = true.
Definition string_lt (s t : string) : Prop := String.ltb s t = true.

(** ** The defaulting pass: [ApplyDefaults] *)

(** The values this file takes from the other files of the package and
    from the packages around it: the [statshubaddr] flag, the built-in
    lists, and the identifiers [uuid.New] hands out ([uuid_gen n] is the
    one of its call number [n]). *)
Class Builtins : Type := {
  statshubAddr : string;
  defaultProxiedSites : option (list string);
  defaultTrustedCAs : option (list CA);
  cloudflareMasquerades : list fronted.Masquerade;
  uuid_gen : nat → string
}.

(** Modelled from the spec: [client.SortServers] is not among the
    sources; it sorts the server lists into a deterministic order.  The
    order itself is [servers_order]. *)
Class ServerOrder : Type := {
  servers_order :
    list (option client.FrontedServerInfo) → list (option client.FrontedServerInfo)
}.

(** Modelled from the spec: [c.SortServers()] puts the fronted-server list
    in that order and touches nothing else. *)
Definition SortServers `{ServerOrder} (c : client.ClientConfig) : client.ClientConfig :=
  client.set_FrontedServers (servers_order <$> client.FrontedServers c) c.

(** What [ApplyDefaults] can touch: the [Config] its receiver points to,
    the supply of identifiers, and the launch files created (the arguments
    of the calls to [launcher.CreateLaunchFile], latest first). *)
Record Process : Type := mkProcess {
  p_cfg : Config;
  p_uuids : nat;
  p_launch : list bool
}.

Definition on_cfg {A} (m : M Config A) : M Process A :=
  λ p, match m (p_cfg p) with
       | Ok (a, c) => Ok (a, mkProcess c (p_uuids p) (p_launch p))
       | Panic msg => Panic msg
       end.

Definition uuid_New `{Builtins} : M Process string :=
  λ p, Ok (uuid_gen (p_uuids p), mkProcess (p_cfg p) (S (p_uuids p)) (p_launch p)).

Definition launcher_CreateLaunchFile (autoLaunch : bool) : M Process unit :=
  λ p, Ok (tt, mkProcess (p_cfg p) (p_uuids p) (autoLaunch :: p_launch p)).

(** [cfg.Client.MasqueradeSets[key] = value]: storing into a nil map
    panics. *)
Definition MasqueradeSets_store (key : string) (value : list fronted.Masquerade)
  : M Config unit :=
  sets ← Client_read client.MasqueradeSets;
  match sets with
  | Some m => Client_write (client.set_MasqueradeSets (Some (<[key := value]> m)))
  | None => panic "assignment to entry in nil map"
  end.

(** The body of [for _, server := range cfg.Client.FrontedServers]. *)
Definition default_server (server : client.FrontedServerInfo)
  : client.FrontedServerInfo :=
  let server := if client.QOS server =? 0 then client.set_QOS 5 server else server in
  let server :=
    if client.Weight server =? 0 then client.set_Weight 100 server else server in
  let server :=
    if client.RedialAttempts server =? 0
    then client.set_RedialAttempts 2 server else server in
  server.

(** The loop writes through each pointer of the slice, in order; [None]
    when it meets a nil pointer. *)
Fixpoint range_servers (l : list (option client.FrontedServerInfo))
  : option (list (option client.FrontedServerInfo)) :=
  match l with
  | [] => Some []
  | None :: _ => None
  | Some server :: rest =>
    match range_servers rest with
    | Some rest' => Some (Some (default_server server) :: rest')
    | None => None
    end
  end.

Definition range_FrontedServers : M Config unit :=
  servers ← Client_read client.FrontedServers;
  match servers with
  | None => mret tt
  | Some l =>
    match range_servers l with
    | Some l' => Client_write (client.set_FrontedServers (Some l'))
    | None => panic nil_dereference
    end
  end.

Definition applyClientDefaults `{Builtins} `{ServerOrder} : M Process unit :=
  when_ (on_cfg (Client_read (λ c, is_nil (client.MasqueradeSets c))))
        (on_cfg (Client_write (client.set_MasqueradeSets (Some ∅)))) ;;
  when_ (on_cfg (Client_read (λ c, len_map (client.MasqueradeSets c) =? 0)))
        (on_cfg (MasqueradeSets_store cloudflare cloudflareMasquerades)) ;;
  when_ (on_cfg (Client_read (λ c, is_nil (client.FrontedServers c))))
        (on_cfg (Client_write (client.set_FrontedServers (Some [])))) ;;
  when_ (on_cfg (Client_read (λ c, (len (client.FrontedServers c) =? 0)
                                   && (len_map (client.ChainedServers c) =? 0))))
        (mret tt) ;;
  when_ (on_cfg (gets (λ cfg, is_nil (AutoReport cfg))))
        (on_cfg (modify (set_AutoReport (Some true)))) ;;
  when_ (on_cfg (gets (λ cfg, is_nil (AutoLaunch cfg))))
        (on_cfg (modify (set_AutoLaunch (Some true))) ;;
         launcher_CreateLaunchFile true) ;;
  on_cfg range_FrontedServers ;;
  when_ (on_cfg (Client_read (λ c, is_nil (client.ChainedServers c))))
        (on_cfg (Client_write (client.set_ChainedServers (Some ∅)))) ;;
  on_cfg (Client_write SortServers).

Definition emptyProxiedSites : proxiedsites.Config :=
  {| proxiedsites.Delta_ :=
       Some {| proxiedsites.Additions := Some []; proxiedsites.Deletions := Some [] |};
     proxiedsites.Cloud := Some [] |}.

Definition ApplyDefaults `{Builtins} `{ServerOrder} : M Process unit :=
  when_ (on_cfg (gets (λ cfg, Role cfg =? "")%string))
        (on_cfg (modify (set_Role "client"))) ;;
  when_ (on_cfg (gets (λ cfg, Addr cfg =? "")%string))
        (on_cfg (modify (set_Addr "127.0.0.1:8787"))) ;;
  when_ (on_cfg (gets (λ cfg, UIAddr cfg =? "")%string))
        (on_cfg (modify (set_UIAddr "127.0.0.1:16823"))) ;;
  when_ (on_cfg (gets (λ cfg, CloudConfig cfg =? "")%string))
        (on_cfg (modify (set_CloudConfig defaultCloudConfigUrl))) ;;
  when_ (on_cfg (gets (λ cfg, InstanceId cfg =? "")%string))
        (id ← uuid_New; on_cfg (modify (set_InstanceId id))) ;;
  when_ (on_cfg (gets (λ cfg, is_nil (Stats cfg))))
        (on_cfg (modify (set_Stats (Some statreporter.zero)))) ;;
  when_ (on_cfg (Stats_read (λ s, statreporter.StatshubAddr s =? "")%string))
        (on_cfg (Stats_write (statreporter.set_StatshubAddr statshubAddr))) ;;
  when_ (on_cfg (gets (λ cfg, negb (is_nil (Client cfg))
                              && (Role cfg =? "client")%string)))
        applyClientDefaults ;;
  when_ (on_cfg (gets (λ cfg, is_nil (ProxiedSites cfg))))
        (on_cfg (modify (set_ProxiedSites (Some emptyProxiedSites)))) ;;
  when_ (on_cfg (ProxiedSites_read
                   (λ p, is_nil (proxiedsites.Cloud p)
                         || (len (proxiedsites.Cloud p) =? 0))))
        (on_cfg (ProxiedSites_write (proxiedsites.set_Cloud defaultProxiedSites))) ;;
  when_ (on_cfg (gets (λ cfg, is_nil (TrustedCAs cfg)
                              || (len (TrustedCAs cfg) =? 0))))
        (on_cfg (modify (set_TrustedCAs defaultTrustedCAs))).

(** What [ApplyDefaults] leaves behind, for the statements below.  A
    fronted-server list is [settled] when the loop of
    [applyClientDefaults] runs through it and changes nothing. *)
Definition settled (l : list (option client.FrontedServerInfo)) : Prop :=
  range_servers l = Some l.

Definition ClientDefaulted `{ServerOrder} (cfg : Config) (c : client.ClientConfig)
  : Prop :=
  (∃ sets, client.MasqueradeSets c = Some sets ∧ size sets ≠ 0%nat)
  ∧ (∃ l, client.FrontedServers c = Some l ∧ settled l ∧ servers_order l = l)
  ∧ is_Some (client.ChainedServers c)
  ∧ is_Some (AutoReport cfg) ∧ is_Some (AutoLaunch cfg).

Definition Defaulted `{Builtins} `{ServerOrder} (cfg : Config) : Prop :=
  Role cfg ≠ "" ∧ Addr cfg ≠ "" ∧ UIAddr cfg ≠ "" ∧ CloudConfig cfg ≠ ""
  ∧ InstanceId cfg ≠ ""
  ∧ (∃ s, Stats cfg = Some s
          ∧ (statreporter.StatshubAddr s = "" → statshubAddr = ""))
  ∧ (∀ c, Client cfg = Some c → Role cfg = "client" → ClientDefaulted cfg c)
  ∧ (∃ ps, ProxiedSites cfg = Some ps
           ∧ (len (proxiedsites.Cloud ps) = 0
              → proxiedsites.Cloud ps = defaultProxiedSites))
  ∧ (len (TrustedCAs cfg) = 0 → TrustedCAs cfg = defaultTrustedCAs).

(** [Defaulted], by the statements of [ApplyDefaults] that have run: the
    first [n] of them; and the same for [applyClientDefaults]. *)
Definition defaulted_upto `{Builtins} `{ServerOrder} (n : nat) (cfg : Config) : Prop :=
  ((1 ≤ n)%nat → Role cfg ≠ "")
  ∧ ((2 ≤ n)%nat → Addr cfg ≠ "")
  ∧ ((3 ≤ n)%nat → UIAddr cfg ≠ "")
  ∧ ((4 ≤ n)%nat → CloudConfig cfg ≠ "")
  ∧ ((5 ≤ n)%nat → InstanceId cfg ≠ "")
  ∧ ((6 ≤ n)%nat → is_Some (Stats cfg))
  ∧ ((7 ≤ n)%nat →
     ∃ s, Stats cfg = Some s ∧ (statreporter.StatshubAddr s = "" → statshubAddr = ""))
  ∧ ((8 ≤ n)%nat →
     ∀ c, Client cfg = Some c → Role cfg = "client" → ClientDefaulted cfg c)
  ∧ ((9 ≤ n)%nat → is_Some (ProxiedSites cfg))
  ∧ ((10 ≤ n)%nat →
     ∃ ps, ProxiedSites cfg = Some ps
           ∧ (len (proxiedsites.Cloud ps) = 0
              → proxiedsites.Cloud ps = defaultProxiedSites))
  ∧ ((11 ≤ n)%nat → len (TrustedCAs cfg) = 0 → TrustedCAs cfg = defaultTrustedCAs).

Definition client_defaulted_upto `{ServerOrder} (n : nat) (cfg : Config) : Prop :=
  ∃ c, Client cfg = Some c
    ∧ ((1 ≤ n)%nat → is_Some (client.MasqueradeSets c))
    ∧ ((2 ≤ n)%nat →
       ∃ sets, client.MasqueradeSets c = Some sets ∧ size sets ≠ 0%nat)
    ∧ ((3 ≤ n)%nat → is_Some (client.FrontedServers c))
    ∧ ((5 ≤ n)%nat → is_Some (AutoReport cfg))
    ∧ ((6 ≤ n)%nat → is_Some (AutoLaunch cfg))
    ∧ ((7 ≤ n)%nat → ∃ l, client.FrontedServers c = Some l ∧ settled l)
    ∧ ((8 ≤ n)%nat → is_Some (client.ChainedServers c))
    ∧ ((9 ≤ n)%nat → ∃ l, client.FrontedServers c = Some l ∧ servers_order l = l).

(** The fields [applyClientDefaults] does not write. *)
Definition outside_client (cfg : Config) :=
  (Role cfg, Addr cfg, UIAddr cfg, CloudConfig cfg, InstanceId cfg, Stats cfg,
   ProxiedSites cfg, TrustedCAs cfg).

(** A computation that returns leaves [Q], from [P]; a computation that
    changes nothing and returns, from [P]. *)
Definition leaves {S A} (P : S → Prop) (m : M S A) (Q : S → Prop) : Prop :=
  ∀ s a s', P s → m s = Ok (a, s') → Q s'.

Definition keeps {S} (P : S → Prop) (m : M S unit) : Prop :=
  ∀ s, P s → m s = Ok (tt, s).

(** ** The poll: [pollWithHttpClient] *)

(** The manager hands configurations over as pointers.  [Store] is what
    the poll can reach: the configurations by address, and the ETag
    cache. *)
Record Store : Type := mkStore {
  heap : gmap nat Config;
  lastCloudConfigETag : ETags
}.

(** A method called on the [*Config] at address [p]. *)
Definition at_ptr {A} (p : nat) (m : M Config A) : M Store A :=
  λ st, match heap st !! p with
        | None => Panic nil_dereference
        | Some c =>
          match m c with
          | Ok (a, c') => Ok (a, mkStore (<[p := c']> (heap st)) (lastCloudConfigETag st))
          | Panic msg => Panic msg
          end
        end.

Definition on_etags {A} (m : M ETags A) : M Store A :=
  λ st, match m (lastCloudConfigETag st) with
        | Ok (a, cache) => Ok (a, mkStore (heap st) cache)
        | Panic msg => Panic msg
        end.

(** The mutation handed back to the manager, which calls it on the
    configuration of its choice. *)
Definition Mutation : Type := nat → M Store (option error).

Definition pollWithHttpClient `{Net} `{yaml.Codec}
  (currentCfg : nat) (client : HttpClient) (draw : Z)
  : M Store (Mutation * Z * option error) :=
  let mutate : Mutation := λ ycfg, mret None in
  cfg ← at_ptr currentCfg get;
  let waitTime := cloudPollSleepTime draw in
  if (CloudConfig cfg =? "")%string then
    mret (mutate, waitTime, None)
  else
    let url := CloudConfig cfg in
    '(bytes, err) ← on_etags (fetchCloudConfig client url "");
    match err with
    | None =>
      match bytes with
      | Some bytes =>
        mret ((λ ycfg, at_ptr ycfg (updateFrom bytes)) : Mutation, waitTime, None)
      | None => mret (mutate, waitTime, None)
      end
    | Some err => mret (mutate, waitTime, Some err)
    end.

(** The two mutations a poll can hand back. *)
Definition does_nothing (mutate : Mutation) : Prop :=
  ∀ ycfg st, mutate ycfg st = Ok (None, st).
Definition merges `{yaml.Codec} (bytes : list byte) (mutate : Mutation) : Prop :=
  ∀ ycfg st, mutate ycfg st = at_ptr ycfg (updateFrom bytes) st.

(** ** The first-run bootstrap race *)

(** A payload sent on [configs]: a [[]byte], possibly nil. *)
Abbreviation Payload := (option (list byte)).

(** One goroutine of the race, by what its calls returned: a chained
    attempt ([bootstrap]) by the error of [s.Dialer()] and the result of
    [fetchCloudConfig]; the direct attempt by the errors of
    [fronted.NewDirect] and [direct.Response] and the result of
    [readConfigResponse]. *)
Inductive Attempt : Type :=
| Chained (dialer_err : option string) (fetched : Payload * option error)
| Direct (newDirect_err response_err : option string)
         (read : Payload * option error).

(** [bootstrap(s, configs, once, url)]: the body it passes to [once.Do],
    if it gets that far; no dialer, or a fetch that returns an error, and
    it returns without a word. *)
Definition bootstrap (dialer_err : option string) (fetched : Payload * option error)
  : option Payload :=
  match dialer_err with
  | Some _ => None
  | None =>
    match fetched with
    | (bytes, None) => Some bytes
    | (_, Some _) => None
    end
  end.

(** The goroutine of [FirstRunSetup] that tries direct domain fronting:
    each failure is logged, the body of a response that reads well is
    passed to [once.Do]. *)
Definition direct_fronting (newDirect_err response_err : option string)
  (read : Payload * option error) : option Payload :=
  match newDirect_err with
  | Some _ => None
  | None =>
    match response_err with
    | Some _ => None
    | None =>
      match read with
      | (body, None) => Some body
      | (_, Some _) => None
      end
    end
  end.

Definition delivers (a : Attempt) : option Payload :=
  match a with
  | Chained dialer_err fetched => bootstrap dialer_err fetched
  | Direct newDirect_err response_err read =>
    direct_fronting newDirect_err response_err read
  end.

(** The race while it runs: the [sync.Once], the buffer of the channel
    [configs] (capacity 1), the goroutines that have not yet returned, and
    what the consumer got from [<-configs] ([None] while it waits). *)
Record Race : Type := mkRace {
  once_done : bool;
  configs : list Payload;
  running : list Attempt;
  received : option Payload
}.

Definition configs_cap : nat := 1.

Definition start (attempts : list Attempt) : Race :=
  {| once_done := false; configs := []; running := attempts; received := None |}.

(** [once.Do(func() { configs <- body })]: the first call sends, which
    needs room in the buffer ([None]: the sender blocks); later calls do
    nothing. *)
Definition once_Do_send (body : Payload) (r : Race) : option Race :=
  if once_done r then Some r
  else if decide (length (configs r) < configs_cap)%nat then
    Some (mkRace true (configs r ++ [body]) (running r) (received r))
  else None.

(** The goroutine at position [i] of [running] runs to its end. *)
Definition finish (i : nat) (r : Race) : option Race :=
  match running r !! i with
  | None => None
  | Some a =>
    let r' := mkRace (once_done r) (configs r) (delete i (running r)) (received r) in
    match delivers a with
    | Some body => once_Do_send body r'
    | None => Some r'
    end
  end.

(** [config := <-configs]: possible once a payload is in the buffer. *)
Definition receive (r : Race) : option Race :=
  match received r, configs r with
  | None, body :: rest => Some (mkRace (once_done r) rest (running r) (Some body))
  | _, _ => None
  end.

Inductive Action : Type := Finish (i : nat) | Receive.

Definition act (a : Action) (r : Race) : option Race :=
  match a with Finish i => finish i r | Receive => receive r end.

(** A run: the actions in the order the scheduler lets them happen. *)
Fixpoint run (schedule : list Action) (r : Race) : option Race :=
  match schedule with
  | [] => Some r
  | a :: rest => match act a r with Some r' => run rest r' | None => None end
  end.

(** Nothing more can happen: every goroutine has returned and the consumer
    has its payload or has none to take. *)
Definition terminal (r : Race) : bool :=
  match running r, received r, configs r with
  | [], Some _, _ => true
  | [], None, [] => true
  | _, _, _ => false
  end.

(** The payloads the consumer has observed: one, or none yet. *)
Definition observed (r : Race) : nat :=
  match received r with Some _ => 1 | None => 0 end.

(** What holds of the race at every moment, with [finished] the attempts
    that have returned: while the gate is open nothing was sent and every
    finished attempt failed; once it is shut exactly one body was sent, the
    body of a finished attempt that succeeded, and it is in the buffer or
    with the consumer. *)
Definition race_inv (attempts : list Attempt) (r : Race) : Prop :=
  ∃ finished,
    attempts ≡ₚ finished ++ running r
    ∧ (once_done r = false →
       configs r = [] ∧ received r = None
       ∧ Forall (λ a, delivers a = None) finished)
    ∧ (once_done r = true →
       ∃ body a, a ∈ finished ∧ delivers a = Some body
                 ∧ ((configs r = [body] ∧ received r = None)
                    ∨ (configs r = [] ∧ received r = Some body))).

(** ** The race once it is decided *)


(** ** Steps of the merge, for the statements on merging twice *)

(** The deduplication block as a function of the policy alone. *)
Definition dedup_policy (ps : option proxiedsites.Config)
  : option proxiedsites.Config :=
  match ps with
  | Some p =>
    if 0 <? len (proxiedsites.Cloud p)
    then Some (proxiedsites.set_Cloud
                 (Some (dedup_sorted (default [] (proxiedsites.Cloud p)))) p)
    else Some p
  | None => None
  end.


(** ** What the defaulting pass leaves alone *)

(** [kept p0 p]: of the process [p0] the pass started from, [p] still has
    every setting that was made: the fields no statement of
    [ApplyDefaults] assigns, and each field it assigns only when empty,
    when it was not empty. *)
Definition kept (p0 p : Process) : Prop :=
  let cfg0 := p_cfg p0 in
  let cfg := p_cfg p in
  Version cfg = Version cfg0
  ∧ CloudConfigCA cfg = CloudConfigCA cfg0
  ∧ CpuProfile cfg = CpuProfile cfg0
  ∧ MemProfile cfg = MemProfile cfg0
  ∧ Server cfg = Server cfg0
  ∧ (Role cfg0 ≠ "" → Role cfg = Role cfg0)
  ∧ (Addr cfg0 ≠ "" → Addr cfg = Addr cfg0)
  ∧ (UIAddr cfg0 ≠ "" → UIAddr cfg = UIAddr cfg0)
  ∧ (CloudConfig cfg0 ≠ "" → CloudConfig cfg = CloudConfig cfg0)
  ∧ (InstanceId cfg0 ≠ "" →
     InstanceId cfg = InstanceId cfg0 ∧ p_uuids p = p_uuids p0)
  ∧ (∀ s, Stats cfg0 = Some s → statreporter.StatshubAddr s ≠ "" →
          Stats cfg = Some s)
  ∧ (is_Some (AutoReport cfg0) → AutoReport cfg = AutoReport cfg0)
  ∧ (is_Some (AutoLaunch cfg0) →
     AutoLaunch cfg = AutoLaunch cfg0 ∧ p_launch p = p_launch p0)
  ∧ (∀ ps, ProxiedSites cfg0 = Some ps → len (proxiedsites.Cloud ps) ≠ 0 →
           ProxiedSites cfg = Some ps)
  ∧ (len (TrustedCAs cfg0) ≠ 0 → TrustedCAs cfg = TrustedCAs cfg0)
  ∧ (Client cfg0 = None →
     Client cfg = None ∧ AutoReport cfg = AutoReport cfg0
     ∧ AutoLaunch cfg = AutoLaunch cfg0 ∧ p_launch p = p_launch p0)
  ∧ (∀ c, Client cfg0 = Some c →
          ∃ c', Client cfg = Some c'
                ∧ (∀ m, client.ChainedServers c = Some m →
                        client.ChainedServers c' = Some m)
                ∧ (∀ m, client.MasqueradeSets c = Some m → m ≠ ∅ →
                        client.MasqueradeSets c' = Some m)).

(** ** Computations that return, and computations that panic *)

(** From [P], the computation returns and leaves [Q]; from [P], it panics
    on a nil dereference. *)
Definition runs {S} (P : S → Prop) (m : M S unit) (Q : S → Prop) : Prop :=
  ∀ s, P s → ∃ s', m s = Ok (tt, s') ∧ Q s'.



(** Where a pass stands: before its first statement, before its client
    block, and with given fronted servers. *)
Abbreviation with_fronted fs :=
  (λ p : Process, ∃ c, Client (p_cfg p) = Some c ∧ client.FrontedServers c = fs).

Abbreviation before_client cl b :=
  (λ p : Process, Client (p_cfg p) = cl
                  ∧ (Role (p_cfg p) =? "client")%string = b).

Abbreviation at_start cl b :=
  (λ p : Process,
     Client (p_cfg p) = cl
     ∧ ((Role (p_cfg p) =? "") || (Role (p_cfg p) =? "client"))%string = b).

Abbreviation client_block :=
  (when_ (on_cfg (gets (λ cfg, negb (is_nil (Client cfg))
                               && (Role cfg =? "client")%string)))
         applyClientDefaults).

(** ** The file system, as this package sees it *)

Module os.
(** An [os.FileInfo]: of it the package reads the name and whether it is
    a directory. *)
Record FileInfo : Type := mkFileInfo { Name : string; IsDir : bool }.

(** What [os.Stat] returns: the [FileInfo], or no [FileInfo] and an error
    that [os.IsNotExist] recognises, or not. *)
Inductive StatResult : Type :=
| Found (fi : FileInfo)
| NotExist
| OtherError (err : string).
End os.

(** The calls into [os], [io/ioutil], [path/filepath] and [appdir], on a
    file system [FS]: what they return, and for the two that write the file
    system they leave when they succeed (a call that returns an error is
    taken to have changed nothing). *)
Class OS : Type := {
  FS : Type;
  os_Stat : string → FS → os.StatResult;
  ioutil_ReadFile : string → FS → string + list byte;
  ioutil_ReadDir : string → FS → string + list os.FileInfo;
  os_Rename : string → string → FS → string + FS;
  os_MkdirAll : string → FS → string + FS;
  filepath_Join : string → string → string;
  appdir_General : string → string
}.

(** [strings.HasPrefix] and [strings.HasSuffix]:
    [len(s) >= len(prefix) && s[0:len(prefix)] == prefix], and the same at
    the end of [s]. *)
Definition strings_HasPrefix (s prefix : string) : bool :=
  (String.length prefix <=? String.length s)%nat
  && (String.substring 0 (String.length prefix) s =? prefix)%string.

Definition strings_HasSuffix (s suffix : string) : bool :=
  (String.length suffix <=? String.length s)%nat
  && (String.substring (String.length s - String.length suffix)
        (String.length suffix) s =? suffix)%string.

(** A computation on a value of its own ([cfg := &Config{}]), inside a
    computation on another state: its result and the value it leaves. *)
Definition on_new {S T A} (init : T) (m : M T A) : M S (A * T) :=
  λ s, match m init with
       | Ok r => Ok (r, s)
       | Panic msg => Panic msg
       end.

(** [exists]: [os.Stat], and whether the error is not [os.IsNotExist]; the
    [FileInfo] is nil whenever [os.Stat] returned an error. *)
Definition exists_ `{OS} (file : string) : M FS (option os.FileInfo * bool) :=
  st ← gets (os_Stat file);
  match st with
  | os.NotExist => mret (None, false)
  | os.Found fi => mret (Some fi, true)
  | os.OtherError _ => mret (None, true)
  end.

Definition hasCustomChainedServer `{OS} `{yaml.Codec} (configPath name : string)
  : M FS bool :=
  if negb (strings_HasPrefix name "lantern" && strings_HasSuffix name ".yaml")
  then mret false
  else
    r ← gets (ioutil_ReadFile configPath);
    match r with
    | inl _ => mret false
    | inr bytes =>
      '(err, cfg) ← on_new emptyConfig (yaml.Unmarshal bytes);
      match err with
      | Some _ => mret false
      | None =>
        '(nc, _) ← on_new cfg (Client_read (λ c, len_map (client.ChainedServers c)));
        mret ((0 <? nc) && (nc <? 10))
      end
    end.

(** [exists && hasCustomChainedServer(configPath, fi.Name())]: [fi.Name()]
    is evaluated when [exists] holds, on a [FileInfo] that is nil when
    [os.Stat] failed otherwise than with "not exist". *)
Definition isGoodConfig `{OS} `{yaml.Codec} (configPath : string) : M FS bool :=
  r ← exists_ configPath;
  let '(fi, found) := (r : option os.FileInfo * bool) in
  if found then
    match fi with
    | Some fi => hasCustomChainedServer configPath (os.Name fi)
    | None => panic nil_dereference
    end
  else mret false.

(** [os.Rename] and [os.MkdirAll] as statements: the error they return,
    if any. *)
Definition rename `{OS} (oldpath newpath : string) : M FS (option string) :=
  λ fs, match os_Rename oldpath newpath fs with
        | inl err => Ok (Some err, fs)
        | inr fs' => Ok (None, fs')
        end.

Definition mkdirAll `{OS} (path : string) : M FS (option string) :=
  λ fs, match os_MkdirAll path fs with
        | inl err => Ok (Some err, fs)
        | inr fs' => Ok (None, fs')
        end.

(** The loop [for _, file := range files] of [copyGoodOldConfig]. *)
Fixpoint range_files `{OS} `{yaml.Codec} (configDir configPath : string)
    (files : list os.FileInfo) : M FS unit :=
  match files with
  | [] => mret tt
  | file :: rest =>
    if os.IsDir file then range_files configDir configPath rest
    else
      let name := os.Name file in
      let path := filepath_Join configDir name in
      good ← isGoodConfig path;
      if (good : bool) then
        err ← rename path configPath;
        match (err : option string) with
        | Some _ => range_files configDir configPath rest
        | None => mret tt
        end
      else range_files configDir configPath rest
  end.

Definition copyGoodOldConfig `{OS} `{yaml.Codec} (configDir configPath : string)
  : M FS unit :=
  good ← isGoodConfig configPath;
  if (good : bool) then mret tt
  else
    r ← gets (ioutil_ReadDir configDir);
    match r with
    | inl _ => mret tt
    | inr files => range_files configDir configPath files
    end.

(** [Init], its first statement: the name of the configuration file of a
    version. *)
Definition Init_file (version : string) : string :=
  "lantern-" +:+ version +:+ ".yaml".

(** [InConfigDir]: the directory is the [configdir] flag, or the one
    [appdir.General("Lantern")] gives when the flag is empty; it is created
    when [os.Stat] says it does not exist.  The result is the directory,
    the path of the file in it and no error, or two empty strings and the
    message of the error. *)
Definition InConfigDir `{OS} (configdir filename : string)
  : M FS (string * string * option string) :=
  let cdir := if (configdir =? "")%string then appdir_General "Lantern" else configdir in
  st ← gets (os_Stat cdir);
  match st with
  | os.NotExist =>
    err ← mkdirAll cdir;
    match (err : option string) with
    | Some err =>
      mret ("", "", Some ("Unable to create configdir at " +:+ cdir +:+ ": " +:+ err))
    | None => mret (cdir, filepath_Join cdir filename, None)
    end
  | _ => mret (cdir, filepath_Join cdir filename, None)
  end.

(** ** The default fallback by territory *)

(** [strings.ToLower] on text in ASCII: the letters [A] to [Z] become [a]
    to [z], every other byte is kept.  (On other text Go maps each rune by
    [unicode.ToLower]; the statements on this function are about ASCII
    text.) *)
Definition lower_byte (c : Ascii.ascii) : Ascii.ascii :=
  let n := Ascii.nat_of_ascii c in
  if ((65 <=? n) && (n <=? 90))%nat then Ascii.ascii_of_nat (n + 32) else c.

Fixpoint strings_ToLower (s : string) : string :=
  match s with
  | EmptyString => EmptyString
  | String c s' => String (lower_byte c) (strings_ToLower s')
  end.

Fixpoint is_ASCII (s : string) : bool :=
  match s with
  | EmptyString => true
  | String c s' => (Ascii.nat_of_ascii c <? 128)%nat && is_ASCII s'
  end.

Definition defaultRoundRobinForTerritory (localeTerritory : string) : string :=
  let lt := strings_ToLower localeTerritory in
  let datacenter := if (lt =? "cn")%string then "jp" else "nl" in
  datacenter +:+ ".fallbacks.getiantem.org".

(** [defaultRoundRobin], by what [jibber_jabber.DetectTerritory] returns:
    the territory, or an error. *)
Definition defaultRoundRobin (detected : string + string) : string :=
  let localeTerritory := match detected with inr t => t | inl _ => "us" end in
  defaultRoundRobinForTerritory localeTerritory.

(** ** The version pattern *)

Module regexp.
(** The fragment of Go's regular expressions this package uses: a
    sequence of pieces, each one character of a class, or one or more of
    them ([+], which takes as many as it can and gives back when the rest
    does not match). *)
Inductive class : Type := Digit | Byte (b : Ascii.ascii).
Inductive piece : Type := One (k : class) | Many (k : class).

Definition matches (k : class) (c : Ascii.ascii) : bool :=
  match k with
  | Digit => let n := Ascii.nat_of_ascii c in ((48 <=? n) && (n <=? 57))%nat
  | Byte b => Ascii.eqb b c
  end.

(** [k+] followed by [next], at the start of [s]: the text matched. *)
Fixpoint many (k : class) (next : string → option string) (s : string)
  : option string :=
  match s with
  | String c s' =>
    if matches k c then
      match many k next s' with
      | Some m => Some (String c m)
      | None => String c <$> next s'
      end
    else None
  | EmptyString => None
  end.

Fixpoint match_here (re : list piece) : string → option string :=
  match re with
  | [] => λ _, Some EmptyString
  | One k :: rest =>
    λ s, match s with
         | String c s' =>
           if matches k c then String c <$> match_here rest s' else None
         | EmptyString => None
         end
  | Many k :: rest => many k (match_here rest)
  end.

(** A text all of whose characters are of a class, and a text that begins
    with one. *)
Fixpoint all (k : class) (s : string) : bool :=
  match s with
  | EmptyString => true
  | String c s' => matches k c && all k s'
  end.

Definition starts (k : class) (s : string) : bool :=
  match s with
  | EmptyString => false
  | String c _ => matches k c
  end.

(** [FindString]: the text of the leftmost match, the empty string when
    there is none. *)
Fixpoint FindString (re : list piece) (s : string) : string :=
  match match_here re s with
  | Some m => m
  | None =>
    match s with
    | String _ s' => FindString re s'
    | EmptyString => EmptyString
    end
  end.
End regexp.

(** [r = regexp.MustCompile("\\d+\\.\\d+")]. *)
Definition r : list regexp.piece :=
  [regexp.Many regexp.Digit; regexp.One (regexp.Byte (Ascii.ascii_of_nat 46));
   regexp.Many regexp.Digit].

Definition majorVersion (version : string) : string := regexp.FindString r version.

(** A string of decimal digits. *)
Definition digits (s : string) : bool := regexp.all regexp.Digit s.
(** ** Collaborators and data for the examples *)

(** A transport-side stand-in: [":"] is the URL [http.NewRequest] cannot
    parse, and a body is readable when it opens with the two magic bytes
    of gzip, its content being what follows them. *)
#[local] Instance example_net : Net := {|
  url_parse_error url :=
    if (url =? ":")%string then Some "missing protocol scheme" else None;
  gunzip body :=
    match body with
    | x1f :: x8b :: content => GzRead content None
    | _ => GzHeaderError "gzip: invalid header"
    end
|}.

Definition payload (s : string) : list byte := String.list_byte_of_string s.

Definition server_1 : client.ChainedServerInfo :=
  {| client.Addr := "1.2.3.4:443"; client.AuthToken := "token-1" |}.
Definition server_2 : client.ChainedServerInfo :=
  {| client.Addr := "5.6.7.8:443"; client.AuthToken := "token-2" |}.
Definition server_3 : client.ChainedServerInfo :=
  {| client.Addr := "9.10.11.12:443"; client.AuthToken := "token-3" |}.
Definition server_4 : client.ChainedServerInfo :=
  {| client.Addr := "13.14.15.16:443"; client.AuthToken := "token-4" |}.

Definition fronted_1 : client.FrontedServerInfo :=
  {| client.Host := "nl.fallbacks.getiantem.org"; client.Port := 443;
     client.PoolSize := 0; client.MasqueradeSet := "cloudflare";
     client.MaxMasquerades := 20; client.QOS := 0; client.Weight := 0;
     client.Trusted := true; client.RedialAttempts := 0 |}.
Definition fronted_2 : client.FrontedServerInfo :=
  {| client.Host := "jp.fallbacks.getiantem.org"; client.Port := 443;
     client.PoolSize := 0; client.MasqueradeSet := "cloudflare";
     client.MaxMasquerades := 20; client.QOS := 10; client.Weight := 4000;
     client.Trusted := true; client.RedialAttempts := 0 |}.

Definition payload_cloud : string := "proxiedsites: {cloud: [b.com, a.com, a.com]}".
Definition payload_one_server : string :=
  "client: {chainedservers: {fallback-4: {addr: 13.14.15.16:443, authtoken: token-4}}}".
Definition payload_empty : string := "".

(** A codec given by what it does with the payloads above; the third
    cannot be parsed, like every other payload, and the codec reports the
    error without having stored anything. *)
#[local] Instance example_codec : yaml.Codec := {|
  yaml.decode input :=
    let s := String.string_of_list_byte input in
    if (s =? payload_cloud)%string then
      (yaml.mkDoc None None None None None None None None None None None None None
         None (Some (yaml.mkProxiedSitesDoc None (Some ["b.com"; "a.com"; "a.com"])))
         None, None)
    else if (s =? payload_one_server)%string then
      (yaml.mkDoc None None None None None None None None None None None None None
         (Some (yaml.mkClientDoc None (Some {["fallback-4" := server_4]}) None))
         None None, None)
    else if (s =? payload_empty)%string then (yaml.empty, None)
    else (yaml.empty, Some "did not find expected node content")
|}.

(** A configuration in use: three chained servers, one fronted server, one
    trusted CA, a cloud list. *)
Definition cfg_three_servers : Config :=
  {| Version := 3; CloudConfig := defaultCloudConfigUrl; CloudConfigCA := "";
     Addr := "127.0.0.1:8787"; Role := "client"; InstanceId := "instance-1";
     CpuProfile := ""; MemProfile := ""; UIAddr := "127.0.0.1:16823";
     AutoReport := Some true; AutoLaunch := Some true;
     Stats := Some {| statreporter.StatshubAddr := "statshub.example.org" |};
     Server := None;
     Client := Some {| client.FrontedServers := Some [Some fronted_2];
                       client.ChainedServers :=
                         Some (<["fallback-1" := server_1]>
                                (<["fallback-2" := server_2]>
                                  {["fallback-3" := server_3]}));
                       client.MasqueradeSets :=
                         Some {["cloudflare" := [fronted.MasqueradeToken 1]]} |};
     ProxiedSites := Some {| proxiedsites.Delta_ := None;
                             proxiedsites.Cloud := Some ["z.org"] |};
     TrustedCAs := Some [{| CommonName := "Example Root"; Cert := "PEM-1" |}] |}.

#[local] Instance example_builtins : Builtins := {|
  statshubAddr := "statshub.example.org";
  defaultProxiedSites := Some ["example.com"; "example.org"];
  defaultTrustedCAs := Some [{| CommonName := "Built-in Root"; Cert := "PEM-0" |}];
  cloudflareMasquerades := [fronted.MasqueradeToken 7];
  uuid_gen n := ("uuid-" +:+ pretty n)%string
|}.

Fixpoint insert_by_host (s : option client.FrontedServerInfo)
  (l : list (option client.FrontedServerInfo)) : list (option client.FrontedServerInfo) :=
  match l with
  | [] => [s]
  | t :: l' =>
    if String.leb (from_option client.Host "" s) (from_option client.Host "" t)
    then s :: l else t :: insert_by_host s l'
  end.

Definition host_le (s t : option client.FrontedServerInfo) : Prop :=
  string_le (from_option client.Host "" s) (from_option client.Host "" t).

(** An order for the examples: by host name, increasing. *)
#[local] Instance example_order : ServerOrder := {|
  servers_order l := foldr insert_by_host [] l
|}.

(** A response with status 200, a validation token and a readable body;
    the same with a body that is not gzip; and a 304. *)
Definition resp_200 : Response :=
  {| StatusCode := 200; resp_Header := {[etag := "v2"]};
     Body := x1f :: x8b :: payload payload_cloud |}.
Definition resp_200_garbled : Response :=
  {| StatusCode := 200; resp_Header := {[etag := "v2"]};
     Body := payload "<html>captive portal</html>" |}.
Definition resp_304 : Response :=
  {| StatusCode := 304; resp_Header := ∅; Body := [] |}.
Definition resp_503 : Response :=
  {| StatusCode := 503; resp_Header := {[etag := "v2"]}; Body := [] |}.

Definition example_url : string := defaultCloudConfigUrl.
Definition cache_v1 : ETags := {[example_url := "v1"]}.

(** A server whose document has the token ["v2"]: it answers 304 to a
    request that carries that token and 200 with the document to any
    other. *)
Definition conditional_server : HttpClient :=
  λ req, if decide (req_Header req !! ifNoneMatch = Some "v2")
         then inr resp_304 else inr resp_200.

(** The race of the specification's example: three chained attempts, of
    which the second fails to fetch, and a direct attempt that succeeds. *)
Definition race_attempts : list Attempt :=
  [ Chained None (Some (payload "one"), None);
    Chained None (None, Some (ErrFetch example_url "connection reset"));
    Chained None (Some (payload "three"), None);
    Direct None None (Some (payload "direct"), None) ].


(** The proxied-sites policy of [cfg_three_servers] once the cloud list
    [b.com, a.com, a.com] has been merged into it. *)
Definition cloud_merged : proxiedsites.Config :=
  {| proxiedsites.Delta_ := None; proxiedsites.Cloud := Some ["a.com"; "b.com"] |}.

(** [cfg_three_servers] once that payload has been merged into it. *)
Definition cfg_cloud_merged : Config :=
  set_ProxiedSites (Some cloud_merged)
    (set_TrustedCAs (Some [])
       (set_Client (Some (client.mkClientConfig (Some []) (Some ∅) (Some ∅)))
          cfg_three_servers)).

(** [emptyConfig] after [ApplyDefaults], with the values of the examples. *)
Definition emptyConfig_defaulted : Config :=
  {| Version := 0; CloudConfig := defaultCloudConfigUrl; CloudConfigCA := "";
     Addr := "127.0.0.1:8787"; Role := "client"; InstanceId := "uuid-0";
     CpuProfile := ""; MemProfile := ""; UIAddr := "127.0.0.1:16823";
     AutoReport := None; AutoLaunch := None;
     Stats := Some {| statreporter.StatshubAddr := "statshub.example.org" |};
     Server := None; Client := None;
     ProxiedSites :=
       Some {| proxiedsites.Delta_ :=
                 Some {| proxiedsites.Additions := Some [];
                         proxiedsites.Deletions := Some [] |};
               proxiedsites.Cloud := Some ["example.com"; "example.org"] |};
     TrustedCAs := Some [{| CommonName := "Built-in Root"; Cert := "PEM-0" |}] |}.

Definition fronted_1_defaulted : client.FrontedServerInfo :=
  client.set_RedialAttempts 2 (client.set_Weight 100 (client.set_QOS 5 fronted_1)).
Definition fronted_2_defaulted : client.FrontedServerInfo :=
  client.set_RedialAttempts 2 fronted_2.

(** A configuration with two fronted servers and nothing else, and what
    [ApplyDefaults] makes of it. *)
Definition cfg_bare : Config :=
  set_Client
    (Some {| client.FrontedServers := Some [Some fronted_1; Some fronted_2];
             client.ChainedServers := None; client.MasqueradeSets := None |})
    emptyConfig.

Definition cfg_bare_defaulted : Config :=
  {| Version := 0; CloudConfig := defaultCloudConfigUrl; CloudConfigCA := "";
     Addr := "127.0.0.1:8787"; Role := "client"; InstanceId := "uuid-0";
     CpuProfile := ""; MemProfile := ""; UIAddr := "127.0.0.1:16823";
     AutoReport := Some true; AutoLaunch := Some true;
     Stats := Some {| statreporter.StatshubAddr := "statshub.example.org" |};
     Server := None;
     Client :=
       Some {| client.FrontedServers :=
                 Some [Some fronted_2_defaulted; Some fronted_1_defaulted];
               client.ChainedServers := Some ∅;
               client.MasqueradeSets :=
                 Some {[cloudflare := [fronted.MasqueradeToken 7]]} |};
     ProxiedSites :=
       Some {| proxiedsites.Delta_ :=
                 Some {| proxiedsites.Additions := Some [];
                         proxiedsites.Deletions := Some [] |};
               proxiedsites.Cloud := Some ["example.com"; "example.org"] |};
     TrustedCAs := Some [{| CommonName := "Built-in Root"; Cert := "PEM-0" |}] |}.


(** A file system with one directory, ["/cfg"], given by the names and
    contents of its files in the order [ioutil.ReadDir] lists them; every
    call succeeds on a file that is there. *)
Definition cfg_dir : string := "/cfg".

Definition in_cfg_dir (name : string) : string := cfg_dir +:+ "/" +:+ name.

Definition file_at (path : string) (fs : list (string * list byte))
  : option (string * list byte) :=
  List.find (λ e, (in_cfg_dir (fst e) =? path)%string) fs.

Definition name_of (path : string) : string :=
  String.substring 5 (String.length path - 5) path.

#[local] Instance example_os : OS := {|
  FS := list (string * list byte);
  os_Stat path fs :=
    match file_at path fs with
    | Some e => os.Found (os.mkFileInfo (fst e) false)
    | None => if (path =? cfg_dir)%string
              then os.Found (os.mkFileInfo "cfg" true) else os.NotExist
    end;
  ioutil_ReadFile path fs :=
    match file_at path fs with
    | Some e => inr (snd e)
    | None => inl "no such file or directory"
    end;
  ioutil_ReadDir dir fs :=
    if (dir =? cfg_dir)%string
    then inr ((λ e, os.mkFileInfo (fst e) false) <$> fs)
    else inl "no such file or directory";
  os_Rename oldpath newpath fs :=
    match file_at oldpath fs with
    | Some e =>
      inr ((name_of newpath, snd e)
             :: List.filter (λ e', negb (in_cfg_dir (fst e') =? oldpath)%string
                                   && negb (in_cfg_dir (fst e') =? newpath)%string) fs)
    | None => inl "no such file or directory"
    end;
  os_MkdirAll path fs := inr fs;
  filepath_Join dir name := dir +:+ "/" +:+ name;
  appdir_General name := "/home/user/." +:+ name
|}.

(** The directory after an upgrade from 2.0.0: the configuration of that
    version, which has one chained server, and a file of another kind. *)
Definition fs_after_upgrade : list (string * list byte) :=
  [("lantern-2.0.0.yaml", payload payload_one_server);
   ("notes.txt", payload payload_cloud)].
(* ================================================================= *)
(** * Part II: properties *)
(* ================================================================= *)

(** Running a computation: unfold the monad down to [match]es. *)
Ltac run_M :=
  unfold when_, mbind, M_bind, bind, mret, M_ret, ret, modify, get, gets, panic;
  simpl.

(** ** The conditional fetch and the ETag cache *)

Section Fetch.
Context `{Net}.

Lemma read_304 url resp cache :
  StatusCode resp = 304 →
  readConfigResponse url resp cache = Ok ((None, None), cache).
Proof. intros E. unfold readConfigResponse. rewrite E. reflexivity. Qed.

Lemma read_other_status url resp cache :
  StatusCode resp ≠ 304 → StatusCode resp ≠ 200 →
  readConfigResponse url resp cache
  = Ok ((None, Some (ErrUnexpectedStatus (StatusCode resp))), cache).
Proof.
  intros E1 E2. unfold readConfigResponse.
  apply Z.eqb_neq in E1, E2. rewrite E1, E2. reflexivity.
Qed.

(** On a 200 the token is stored first; what comes back then depends on
    the body alone. *)
Lemma read_200 url resp cache :
  StatusCode resp = 200 →
  readConfigResponse url resp cache
  = Ok (match gunzip (Body resp) with
        | GzHeaderError err => (None, Some (ErrOpenGzip err))
        | GzRead data err => (Some data, ErrForeign <$> err)
        end,
        <[url := Header_Get (resp_Header resp) etag]> cache).
Proof.
  intros E. unfold readConfigResponse. rewrite E. run_M.
  destruct (gunzip (Body resp)); reflexivity.
Qed.

(** Once the request is built and answered, the fetch is
    [readConfigResponse] on the answer. *)
Lemma fetch_answered client url authToken cache resp :
  url_parse_error url = None →
  (∀ req, client req = inr resp) →
  fetchCloudConfig client url authToken cache = readConfigResponse url resp cache.
Proof.
  intros Hurl Hans. unfold fetchCloudConfig, http_NewRequest.
  rewrite Hurl. run_M. rewrite Hans. reflexivity.
Qed.

(** The request carries the cached token exactly when there is one, the
    auth token exactly when there is one, and always the no-cache
    directive and [Close]. *)
Lemma fetch_request client url authToken cache :
  url_parse_error url = None →
  ∃ req,
    fetchCloudConfig client url authToken cache
    = match client req with
      | inl err => Ok ((None, Some (ErrFetch url err)), cache)
      | inr resp => readConfigResponse url resp cache
      end
    ∧ req_URL req = url ∧ req_Method req = "GET" ∧ req_Close req = true
    ∧ req_Header req !! "Cache-Control" = Some "no-cache"
    ∧ req_Header req !! ifNoneMatch
      = (if (etag_of cache url =? "")%string then None else Some (etag_of cache url))
    ∧ req_Header req !! "X-LANTERN-AUTH-TOKEN"
      = (if (authToken =? "")%string then None else Some authToken).
Proof.
  intros Hurl. unfold fetchCloudConfig, http_NewRequest. rewrite Hurl. run_M.
  eexists. split.
  { destruct (client _) eqn:E; rewrite E; reflexivity. }
  destruct (etag_of cache url =? "")%string, (authToken =? "")%string;
    simpl; repeat split; reflexivity.
Qed.

(** The failures that happen before a 200 is seen leave the cache as it
    was. *)
Lemma fetch_bad_url_keeps_cache client url authToken cache err :
  url_parse_error url = Some err →
  fetchCloudConfig client url authToken cache
  = Ok ((None, Some (ErrConstructRequest url err)), cache).
Proof.
  intros Hurl. unfold fetchCloudConfig, http_NewRequest. rewrite Hurl. reflexivity.
Qed.

Lemma fetch_transport_error_keeps_cache client url authToken cache err :
  url_parse_error url = None →
  (∀ req, client req = inl err) →
  fetchCloudConfig client url authToken cache
  = Ok ((None, Some (ErrFetch url err)), cache).
Proof.
  intros Hurl Hans. unfold fetchCloudConfig, http_NewRequest.
  rewrite Hurl. run_M. rewrite Hans. reflexivity.
Qed.

Lemma fetch_bad_status_keeps_cache client url authToken cache resp :
  url_parse_error url = None →
  (∀ req, client req = inr resp) →
  StatusCode resp ≠ 304 → StatusCode resp ≠ 200 →
  fetchCloudConfig client url authToken cache
  = Ok ((None, Some (ErrUnexpectedStatus (StatusCode resp))), cache).
Proof.
  intros Hurl Hans E1 E2. rewrite (fetch_answered _ _ _ _ resp) by done.
  by apply read_other_status.
Qed.

(** A body that cannot be decompressed is found out after the token has
    been stored: the error comes back with the cache already changed. *)
Lemma fetch_gzip_error_moves_cache client url authToken cache resp err :
  url_parse_error url = None →
  (∀ req, client req = inr resp) →
  StatusCode resp = 200 →
  gunzip (Body resp) = GzHeaderError err →
  fetchCloudConfig client url authToken cache
  = Ok ((None, Some (ErrOpenGzip err)),
        <[url := Header_Get (resp_Header resp) etag]> cache).
Proof.
  intros Hurl Hans E Hgz. rewrite (fetch_answered _ _ _ _ resp) by done.
  rewrite read_200 by done. rewrite Hgz. reflexivity.
Qed.

(** C3. Conditional fetch and the cache: for every URL, a fetch that the
    server answers with status 304 returns an absent body and no error and
    leaves the cache as it was; a fetch answered with status 200 sets the
    cached token of that URL to the value of the response's validation-token
    header, and returns the decompressed body when the body decompresses.
    The answer is the one the transport gives to the request the fetch
    sends: a GET for the URL that carries the cached token and the auth
    token, each when there is one. *)
Theorem conditional_fetch_cache client url authToken cache resp :
  url_parse_error url = None →
  (∀ req,
     req_Method req = "GET" → req_URL req = url →
     req_Header req !! ifNoneMatch
     = (if (etag_of cache url =? "")%string then None else Some (etag_of cache url)) →
     req_Header req !! "X-LANTERN-AUTH-TOKEN"
     = (if (authToken =? "")%string then None else Some authToken) →
     client req = inr resp) →
  (StatusCode resp = 304 →
   fetchCloudConfig client url authToken cache = Ok ((None, None), cache))
  ∧ (StatusCode resp = 200 →
     ∃ result cache',
       fetchCloudConfig client url authToken cache = Ok (result, cache')
       ∧ cache' = <[url := Header_Get (resp_Header resp) etag]> cache
       ∧ etag_of cache' url = Header_Get (resp_Header resp) etag
       ∧ (∀ url', url' ≠ url → etag_of cache' url' = etag_of cache url')
       ∧ (∀ data, gunzip (Body resp) = GzRead data None →
                  result = (Some data, None))).
Proof.
  intros Hurl Hans.
  destruct (fetch_request client url authToken cache Hurl)
    as (req & Hrun & HURL & Hmethod & _ & _ & Hetag & Hauth).
  rewrite Hrun, (Hans req Hmethod HURL Hetag Hauth). split.
  - apply read_304.
  - intros E. rewrite read_200 by done. do 2 eexists.
    split; [reflexivity|]. split; [reflexivity|].
    unfold etag_of. split; [by rewrite lookup_insert_eq|]. split.
    + intros url' Hne. by rewrite lookup_insert_ne.
    + intros data Hgz. rewrite Hgz. reflexivity.
Qed.

End Fetch.

Lemma conditional_fetch_cache_witness :
  fetchCloudConfig conditional_server example_url "token-1"
    (<[example_url := "v2"]> cache_v1)
  = Ok ((None, None), <[example_url := "v2"]> cache_v1)
  ∧ ∃ result cache',
      fetchCloudConfig conditional_server example_url "token-1" cache_v1
      = Ok (result, cache')
      ∧ etag_of cache' example_url = "v2"
      ∧ result = (Some (payload payload_cloud), None).
Proof.
  assert (Hurl : url_parse_error example_url = None) by reflexivity.
  split.
  - apply (conditional_fetch_cache conditional_server example_url "token-1"
             (<[example_url := "v2"]> cache_v1) resp_304 Hurl); [|reflexivity].
    intros req _ _ Hetag _. unfold conditional_server.
    change (req_Header req !! ifNoneMatch = Some "v2") in Hetag.
    rewrite Hetag. reflexivity.
  - assert (Hans : ∀ req,
               req_Method req = "GET" → req_URL req = example_url →
               req_Header req !! ifNoneMatch
               = (if (etag_of cache_v1 example_url =? "")%string
                  then None else Some (etag_of cache_v1 example_url)) →
               req_Header req !! "X-LANTERN-AUTH-TOKEN"
               = (if ("token-1" =? "")%string then None else Some "token-1") →
               conditional_server req = inr resp_200).
    { intros req _ _ Hetag _. unfold conditional_server.
      change (req_Header req !! ifNoneMatch = Some "v1") in Hetag.
      rewrite Hetag. reflexivity. }
    destruct (conditional_fetch_cache conditional_server example_url "token-1"
                cache_v1 resp_200 Hurl Hans) as [_ H200].
    destruct (H200 eq_refl) as (result & cache' & Hrun & _ & Htok & _ & Hbody).
    exists result, cache'. split; [exact Hrun|]. split; [exact Htok|].
    apply Hbody. reflexivity.
Defined.

(** C4. A failed fetch should leave the cached token of its URL as it was.
    With the token ["v1"] cached, a 200 response that carries the token
    ["v2"] and a body that is not gzip makes the fetch return an error, and
    the cached token is ["v2"] afterwards: the token is stored before the
    body is opened. *)
Theorem fetch_error_after_200_changes_cache :
  fetchCloudConfig (λ _, inr resp_200_garbled) example_url "" cache_v1
  = Ok ((None, Some (ErrOpenGzip "gzip: invalid header")),
        <[example_url := "v2"]> cache_v1)
  ∧ etag_of cache_v1 example_url = "v1"
  ∧ etag_of (<[example_url := "v2"]> cache_v1) example_url = "v2".
Proof. split; [|split]; reflexivity. Qed.

(** ** The polling wait *)

(** The sum cannot leave the range of an [int64]. *)
Lemma cloudPollSleepTime_exact (draw : Z) :
  0 ≤ draw < CloudConfigPollInterval →
  cloudPollSleepTime draw = CloudConfigPollInterval / 2 + draw.
Proof.
  unfold cloudPollSleepTime, wrap64, CloudConfigPollInterval. intros Hd.
  change (60 * 1000000000 / 2) with 30000000000.
  assert (E : (30000000000 + draw + 2 ^ 63) mod 2 ^ 64
              = 30000000000 + draw + 2 ^ 63) by (apply Z.mod_small; lia).
  rewrite E. lia.
Qed.

(** C6. Jitter bound: for every value [rand.Int63n] can return for the
    one-minute interval, the wait is half the interval plus that value (no
    overflow), hence at least 30 s and less than 90 s. *)
Theorem jitter_bound (draw : Z) :
  0 ≤ draw < CloudConfigPollInterval →
  cloudPollSleepTime draw = CloudConfigPollInterval / 2 + draw
  ∧ 30 * 1000000000 ≤ cloudPollSleepTime draw < 90 * 1000000000.
Proof.
  intros Hd. rewrite (cloudPollSleepTime_exact draw Hd).
  unfold CloudConfigPollInterval in *.
  change (60 * 1000000000 / 2) with 30000000000. lia.
Qed.

Lemma jitter_bound_witness :
  cloudPollSleepTime 0 = CloudConfigPollInterval / 2 + 0
  ∧ 30 * 1000000000 ≤ cloudPollSleepTime 0 < 90 * 1000000000.
Proof. apply (jitter_bound 0). unfold CloudConfigPollInterval. lia. Defined.

(** X8. Every duration of that range is the wait of some draw. *)
Lemma jitter_range_covered (wait : Z) :
  30 * 1000000000 ≤ wait < 90 * 1000000000 →
  ∃ draw, 0 ≤ draw < CloudConfigPollInterval ∧ cloudPollSleepTime draw = wait.
Proof.
  intros Hw. exists (wait - 30000000000).
  assert (Hd : 0 ≤ wait - 30000000000 < CloudConfigPollInterval)
    by (unfold CloudConfigPollInterval; lia).
  split; [exact Hd|]. rewrite (cloudPollSleepTime_exact _ Hd).
  unfold CloudConfigPollInterval.
  change (60 * 1000000000 / 2) with 30000000000. lia.
Qed.

(** ** Strings in increasing order *)

Lemma ascii_compare_refl a : Ascii.compare a a = Eq.
Proof. unfold Ascii.compare. apply N.compare_refl. Qed.

Lemma string_compare_refl s : String.compare s s = Eq.
Proof.
  induction s as [|a s IH]; simpl; [done|]. by rewrite ascii_compare_refl.
Qed.

Lemma string_le_refl s : string_le s s.
Proof. unfold string_le, String.leb. by rewrite string_compare_refl. Qed.

Lemma string_le_trans s t u : string_le s t → string_le t u → string_le s u.
Proof.
  unfold string_le, String.leb. revert t u.
  induction s as [|a s IH]; intros [|b t] [|c u]; simpl; try done.
  unfold Ascii.compare.
  destruct (N.compare_spec (Ascii.N_of_ascii a) (Ascii.N_of_ascii b)) as [E1|E1|E1];
    destruct (N.compare_spec (Ascii.N_of_ascii b) (Ascii.N_of_ascii c)) as [E2|E2|E2];
    destruct (N.compare_spec (Ascii.N_of_ascii a) (Ascii.N_of_ascii c)) as [E3|E3|E3];
    try done; try lia.
  apply IH.
Qed.

Lemma string_le_antisym s t : string_le s t → string_le t s → s = t.
Proof. apply String.leb_antisym. Qed.

Lemma string_le_total s t : string_le s t ∨ string_le t s.
Proof. apply String.leb_total. Qed.

Lemma string_lt_le_ne s t : string_lt s t ↔ string_le s t ∧ s ≠ t.
Proof.
  unfold string_lt, string_le, String.ltb, String.leb. split.
  - destruct (String.compare s t) eqn:E; try done. intros _. split; [done|].
    intros ->. rewrite string_compare_refl in E. done.
  - intros [Hle Hne]. destruct (String.compare s t) eqn:E; try done.
    apply String.compare_eq_iff in E. done.
Qed.

Lemma insert_sorted_perm x l : Permutation (insert_sorted x l) (x :: l).
Proof.
  induction l as [|y l IH]; simpl; [done|].
  destruct (String.leb x y); [done|].
  rewrite IH. apply perm_swap.
Qed.

Lemma sort_Strings_perm l : Permutation (sort_Strings l) l.
Proof.
  induction l as [|x l IH]; simpl; [done|].
  unfold sort_Strings in *. simpl. rewrite insert_sorted_perm. by constructor.
Qed.

Lemma insert_sorted_sorted x l :
  StronglySorted string_le l → StronglySorted string_le (insert_sorted x l).
Proof.
  induction 1 as [|y l Hs IH Hy]; simpl.
  - repeat constructor.
  - destruct (String.leb x y) eqn:E.
    + constructor; [by constructor|]. constructor; [done|].
      eapply Forall_impl; [exact Hy|]. intros z Hz.
      by apply (string_le_trans x y z).
    + constructor; [done|].
      assert (Hyx : string_le y x).
      { destruct (string_le_total x y) as [Hxy|]; [|done].
        unfold string_le in Hxy. congruence. }
      eapply Permutation_Forall; [symmetry; apply insert_sorted_perm|].
      by constructor.
Qed.

Lemma sort_Strings_sorted l : StronglySorted string_le (sort_Strings l).
Proof.
  induction l as [|x l IH]; [constructor|].
  apply insert_sorted_sorted, IH.
Qed.

(** Two increasing lists with the same elements, each as often, are the
    same list: the result of sorting depends on no choice. *)
Lemma sorted_perm_unique l1 l2 :
  StronglySorted string_le l1 → StronglySorted string_le l2 →
  Permutation l1 l2 → l1 = l2.
Proof.
  intros H1. revert l2.
  induction H1 as [|x l1 Hs1 IH Hx]; intros l2 H2 HP.
  - by apply Permutation_nil in HP.
  - destruct H2 as [|y l2 Hs2 Hy].
    + symmetry in HP. by apply Permutation_nil in HP.
    + assert (x = y) as ->.
      { apply string_le_antisym.
        - assert (Hin : y ∈ x :: l1) by (rewrite HP; left).
          apply elem_of_cons in Hin as [->|Hin]; [apply string_le_refl|].
          by eapply Forall_forall in Hx.
        - assert (Hin : x ∈ y :: l2) by (rewrite <- HP; left).
          apply elem_of_cons in Hin as [->|Hin]; [apply string_le_refl|].
          by eapply Forall_forall in Hy. }
      f_equal. apply IH; [done|]. by apply Permutation_cons_inv in HP.
Qed.

Lemma sort_Strings_order_free l1 l2 :
  Permutation l1 l2 → sort_Strings l1 = sort_Strings l2.
Proof.
  intros HP. apply sorted_perm_unique; try apply sort_Strings_sorted.
  by rewrite !sort_Strings_perm.
Qed.

Lemma sorted_nodup_strict l :
  StronglySorted string_le l → NoDup l → StronglySorted string_lt l.
Proof.
  induction 1 as [|x l Hs IH Hx]; intros Hnd; [constructor|].
  apply NoDup_cons in Hnd as [Hnin Hnd]. constructor; [by apply IH|].
  apply Forall_forall. intros y Hy. apply string_lt_le_ne. split.
  - by eapply Forall_forall in Hx.
  - intros ->. done.
Qed.

(** ** The deduplication of the cloud list *)

Lemma wlDomains_lookup (cloud : list string) (m : gmap string bool) d :
  is_Some (foldl (λ m domain, <[domain := true]> m) m cloud !! d)
  ↔ d ∈ cloud ∨ is_Some (m !! d).
Proof.
  revert m. induction cloud as [|x cloud IH]; intros m; simpl.
  - rewrite elem_of_nil. tauto.
  - rewrite IH, elem_of_cons. destruct (decide (x = d)) as [->|Hne].
    + rewrite lookup_insert_eq. split; [auto|]. intros _. right. eauto.
    + rewrite lookup_insert_ne by done. split; [tauto|].
      intros [[E|?]|?]; [congruence|tauto|tauto].
Qed.

Lemma append_each (l acc : list string) :
  foldl (λ acc domain, acc ++ [domain]) acc l = acc ++ l.
Proof.
  revert acc. induction l as [|x l IH]; intros acc; simpl.
  - by rewrite app_nil_r.
  - rewrite IH, <- app_assoc. done.
Qed.

Lemma range_keys_wlDomains cloud :
  let keys := range_keys (foldl (λ m domain, <[domain := true]> m) ∅ cloud) in
  NoDup keys ∧ ∀ d, d ∈ keys ↔ d ∈ cloud.
Proof.
  simpl. split.
  - apply NoDup_fst_map_to_list.
  - intros d. unfold range_keys. rewrite list_elem_of_fmap. split.
    + intros ([k v] & -> & Hin). apply elem_of_map_to_list in Hin.
      assert (Hs : is_Some (foldl (λ m domain, <[domain := true]> m) ∅ cloud !! k))
        by eauto.
      apply wlDomains_lookup in Hs as [?|Hs]; [done|].
      rewrite lookup_empty in Hs. by destruct Hs.
    + intros Hin.
      assert (Hs : is_Some (foldl (λ m domain, <[domain := true]> m) ∅ cloud !! d))
        by (apply wlDomains_lookup; auto).
      destruct Hs as [v Hv]. exists (d, v). split; [done|].
      by apply elem_of_map_to_list.
Qed.

(** What the block leaves in the list: the strings of the list, each
    once, in strictly increasing order. *)
Lemma dedup_sorted_spec cloud :
  StronglySorted string_lt (dedup_sorted cloud)
  ∧ NoDup (dedup_sorted cloud)
  ∧ ∀ d, d ∈ dedup_sorted cloud ↔ d ∈ cloud.
Proof.
  destruct (range_keys_wlDomains cloud) as [Hnd Hin]. simpl in *.
  unfold dedup_sorted. rewrite append_each. simpl.
  assert (Hnd' : NoDup (sort_Strings
             (range_keys (foldl (λ m domain, <[domain := true]> m) ∅ cloud)))).
  { by rewrite sort_Strings_perm. }
  split; [|split].
  - apply sorted_nodup_strict; [apply sort_Strings_sorted|done].
  - done.
  - intros d. rewrite <- Hin. by rewrite sort_Strings_perm.
Qed.

(** X7. The order in which [range] visits the map does not show in the
    result. *)
Lemma dedup_sorted_any_range_order cloud visited :
  Permutation visited
    (range_keys (foldl (λ m domain, <[domain := true]> m) ∅ cloud)) →
  sort_Strings (foldl (λ acc domain, acc ++ [domain]) [] visited)
  = dedup_sorted cloud.
Proof.
  intros HP. unfold dedup_sorted. rewrite !append_each. simpl.
  by apply sort_Strings_order_free.
Qed.

(** ** The merge *)

Section Merge.
Context `{yaml.Codec}.

Lemma updateFrom_nil_client bytes cfg :
  Client cfg = None → updateFrom bytes cfg = Panic nil_dereference.
Proof. intros E. unfold updateFrom, Client_read. run_M. rewrite E. reflexivity. Qed.

(** When the codec reports an error: the receiver is what the codec left,
    with the four collections put back. *)
Lemma updateFrom_error bytes cfg c doc e :
  Client cfg = Some c → yaml.decode bytes = (doc, Some e) →
  updateFrom bytes cfg
  = Ok (Some (ErrUnmarshal e),
        set_TrustedCAs (TrustedCAs cfg)
          (set_Client (Some c) (yaml.apply doc (cleared cfg)))).
Proof.
  intros E D. destruct cfg; simpl in *; subst.
  unfold updateFrom, Client_read, Client_write, yaml.Unmarshal. run_M.
  rewrite D. simpl. destruct c, (yaml.d_Client doc); reflexivity.
Qed.

(** When the codec reports none: the receiver is what the codec made of
    the cleared receiver, deduplicated; without a proxied-sites policy the
    length test panics. *)
Lemma updateFrom_decoded bytes cfg c doc :
  Client cfg = Some c → yaml.decode bytes = (doc, None) →
  updateFrom bytes cfg
  = match ProxiedSites (yaml.apply doc (cleared cfg)) with
    | Some _ => Ok (None, deduplicated (yaml.apply doc (cleared cfg)))
    | None => Panic nil_dereference
    end.
Proof.
  intros E D. destruct cfg; simpl in *; subst.
  unfold updateFrom, Client_read, Client_write, ProxiedSites_read,
    ProxiedSites_write, yaml.Unmarshal, deduplicated. run_M.
  rewrite D. unfold cleared, yaml.apply. simpl.
  destruct (yaml.nested _ (yaml.d_ProxiedSites doc) _) as [p|]; [|reflexivity].
  simpl. destruct (0 <? len (proxiedsites.Cloud p)); simpl;
    destruct c; reflexivity.
Qed.

Lemma ProxiedSites_apply_cleared doc cfg :
  ProxiedSites (yaml.apply doc (cleared cfg)) = ProxiedSites (yaml.apply doc cfg).
Proof. reflexivity. Qed.

Lemma ProxiedSites_apply_is_Some doc cfg :
  is_Some (ProxiedSites (yaml.apply doc cfg))
  ↔ is_Some (ProxiedSites cfg) ∨ is_Some (yaml.d_ProxiedSites doc).
Proof.
  simpl. unfold yaml.nested, yaml.apply_ProxiedSites.
  destruct (yaml.d_ProxiedSites doc); split; eauto.
  intros [?|[? ?]]; done.
Qed.

Lemma Client_deduplicated cfg : Client (deduplicated cfg) = Client cfg.
Proof.
  unfold deduplicated. destruct (ProxiedSites cfg) as [p|]; [|done].
  destruct (0 <? len (proxiedsites.Cloud p)); done.
Qed.

Lemma TrustedCAs_deduplicated cfg : TrustedCAs (deduplicated cfg) = TrustedCAs cfg.
Proof.
  unfold deduplicated. destruct (ProxiedSites cfg) as [p|]; [|done].
  destruct (0 <? len (proxiedsites.Cloud p)); done.
Qed.

(** [updateFrom] returns whenever the receiver has a client
    sub-configuration and, for a payload the codec accepts, a proxied-sites
    policy in the receiver or in the payload. *)
Lemma updateFrom_returns bytes cfg :
  is_Some (Client cfg) →
  (is_Some (snd (yaml.decode bytes))
   ∨ is_Some (ProxiedSites cfg)
   ∨ is_Some (yaml.d_ProxiedSites (fst (yaml.decode bytes)))) →
  ∃ err cfg', updateFrom bytes cfg = Ok (err, cfg').
Proof.
  intros [c Hc] Hp. destruct (yaml.decode bytes) as [doc [e|]] eqn:D; simpl in Hp.
  - rewrite (updateFrom_error _ _ c doc e) by done. eauto.
  - rewrite (updateFrom_decoded _ _ c doc) by done.
    destruct Hp as [[? ?]|Hp]; [done|].
    apply ProxiedSites_apply_is_Some in Hp as [p Hp].
    rewrite ProxiedSites_apply_cleared, Hp. eauto.
Qed.


(** C2. Merge replace-semantics: for every current configuration (with a
    client sub-configuration, and a proxied-sites policy in it or in the
    payload) and every well-formed payload, the merge returns without error
    and the result's fronted-server list, chained-server map, masquerade-set
    map and trusted-CA list are the ones of the payload, empty where the
    payload has none; no prior entry stays. *)
Theorem merge_replaces_collections bytes cfg c doc :
  Client cfg = Some c → yaml.decode bytes = (doc, None) →
  is_Some (ProxiedSites cfg) ∨ is_Some (yaml.d_ProxiedSites doc) →
  ∃ cfg' c',
    updateFrom bytes cfg = Ok (None, cfg')
    ∧ Client cfg' = Some c'
    ∧ client.FrontedServers c'
      = Some (default [] (yaml.d_Client doc ≫= yaml.d_FrontedServers))
    ∧ client.ChainedServers c'
      = Some (default ∅ (yaml.d_Client doc ≫= yaml.d_ChainedServers))
    ∧ client.MasqueradeSets c'
      = Some (default ∅ (yaml.d_Client doc ≫= yaml.d_MasqueradeSets))
    ∧ TrustedCAs cfg' = Some (default [] (yaml.d_TrustedCAs doc)).
Proof.
  intros E D Hp. rewrite (updateFrom_decoded _ _ c doc) by done.
  apply ProxiedSites_apply_is_Some in Hp as [p Hp].
  rewrite ProxiedSites_apply_cleared, Hp.
  eexists. exists (default (client.mkClientConfig (Some []) (Some ∅) (Some ∅))
                     (Client (yaml.apply doc (cleared cfg)))).
  split; [reflexivity|].
  rewrite Client_deduplicated, TrustedCAs_deduplicated.
  unfold cleared. simpl. rewrite E. simpl.
  destruct (yaml.d_Client doc) as [[fs cs ms]|]; simpl.
  - unfold yaml.apply_Client, yaml.over_slice, yaml.into_map.
    destruct fs, cs, ms, (yaml.d_TrustedCAs doc); simpl;
      rewrite ?(right_id_L ∅ (∪)); done.
  - destruct (yaml.d_TrustedCAs doc); done.
Qed.

(** X6. The result of a merge does not depend on what the four collections
    held before. *)
Lemma merge_forgets_collections bytes cfg1 cfg2 :
  is_Some (Client cfg1) → is_Some (Client cfg2) →
  cleared cfg1 = cleared cfg2 →
  ∀ cfg', updateFrom bytes cfg1 = Ok (None, cfg') →
          updateFrom bytes cfg2 = Ok (None, cfg').
Proof.
  intros [c1 E1] [c2 E2] Hc cfg'.
  destruct (yaml.decode bytes) as [doc [e|]] eqn:D.
  - rewrite (updateFrom_error _ _ c1 doc e) by done. done.
  - rewrite (updateFrom_decoded _ _ c1 doc), (updateFrom_decoded _ _ c2 doc) by done.
    by rewrite Hc.
Qed.

(** The cloud list is empty after the block exactly when it was before. *)
Lemma dedup_sorted_nonempty cloud :
  0 < len (Some (dedup_sorted cloud)) ↔ 0 < len (Some cloud).
Proof.
  destruct (dedup_sorted_spec cloud) as (_ & _ & Hin). unfold len. simpl.
  destruct cloud as [|d cloud], (dedup_sorted _) as [|x l] eqn:Hd; simpl;
    try (split; lia).
  - exfalso. apply (elem_of_nil x). apply Hin. by left.
  - exfalso. apply (elem_of_nil d). apply Hin. by left.
Qed.

(** C5. Dedup and sort of proxied sites: every merge of a well-formed
    payload returns a configuration whose cloud list is empty exactly when
    the list the codec left was (the test the code makes before the
    block); when it is not empty, it is in strictly increasing order of
    [sort.Strings] (sorted, no string twice; strings are compared byte by
    byte, so case counts) and holds exactly the strings of the list the
    codec left. *)
Theorem merge_cloud_deduplicated_sorted bytes cfg c doc p :
  Client cfg = Some c →
  yaml.decode bytes = (doc, None) →
  ProxiedSites (yaml.apply doc cfg) = Some p →
  ∃ cfg' p',
    updateFrom bytes cfg = Ok (None, cfg')
    ∧ ProxiedSites cfg' = Some p'
    ∧ (0 < len (proxiedsites.Cloud p') ↔ 0 < len (proxiedsites.Cloud p))
    ∧ (0 < len (proxiedsites.Cloud p') →
       ∃ l, proxiedsites.Cloud p' = Some l
            ∧ StronglySorted string_lt l
            ∧ NoDup l
            ∧ ∀ d, d ∈ l ↔ d ∈ default [] (proxiedsites.Cloud p)).
Proof.
  intros E D Hp.
  assert (Hrun : updateFrom bytes cfg
                 = Ok (None, deduplicated (yaml.apply doc (cleared cfg)))).
  { rewrite (updateFrom_decoded _ _ c doc) by done.
    by rewrite ProxiedSites_apply_cleared, Hp. }
  exists (deduplicated (yaml.apply doc (cleared cfg))).
  unfold deduplicated in *. rewrite ProxiedSites_apply_cleared, Hp in *.
  destruct (0 <? len (proxiedsites.Cloud p)) eqn:Hl.
  - apply Z.ltb_lt in Hl.
    exists (proxiedsites.set_Cloud
              (Some (dedup_sorted (default [] (proxiedsites.Cloud p)))) p).
    split; [exact Hrun|]. split; [reflexivity|]. simpl.
    destruct (dedup_sorted_spec (default [] (proxiedsites.Cloud p)))
      as (Hs & Hnd & Hin).
    split.
    + rewrite dedup_sorted_nonempty.
      destruct (proxiedsites.Cloud p); [done|]. unfold len in Hl. simpl in Hl. lia.
    + intros _. eexists. split; [reflexivity|]. done.
  - apply Z.ltb_ge in Hl. exists p. split; [exact Hrun|].
    split; [by rewrite ProxiedSites_apply_cleared|].
    split; [done|]. intros Hlen. lia.
Qed.

End Merge.


Lemma merge_replaces_collections_witness :
  ∃ cfg' c' servers,
    updateFrom (payload payload_one_server) cfg_three_servers = Ok (None, cfg')
    ∧ (size <$> (Client cfg_three_servers ≫= client.ChainedServers)) = Some 3%nat
    ∧ Client cfg' = Some c'
    ∧ client.ChainedServers c' = Some servers
    ∧ size servers = 1%nat
    ∧ servers !! "fallback-4" = Some server_4.
Proof.
  assert (D : yaml.decode (payload payload_one_server)
              = (yaml.mkDoc None None None None None None None None None None None
                   None None
                   (Some (yaml.mkClientDoc None (Some {["fallback-4" := server_4]}) None))
                   None None, None))
    by reflexivity.
  destruct (merge_replaces_collections (payload payload_one_server)
              cfg_three_servers _ _ eq_refl D)
    as (cfg' & c' & Hrun & Hc' & _ & Hchained & _ & _).
  { left. simpl. eauto. }
  exists cfg', c', {["fallback-4" := server_4]}.
  split; [exact Hrun|]. split; [reflexivity|]. split; [exact Hc'|].
  split; [exact Hchained|]. split; reflexivity.
Defined.

Lemma merge_cloud_deduplicated_sorted_witness :
  ∃ cfg' p',
    updateFrom (payload payload_cloud) cfg_three_servers = Ok (None, cfg')
    ∧ ProxiedSites cfg' = Some p'
    ∧ (0 < len (proxiedsites.Cloud p') ↔ 0 < len (Some ["b.com"; "a.com"; "a.com"]))
    ∧ (0 < len (proxiedsites.Cloud p') →
       ∃ l, proxiedsites.Cloud p' = Some l
            ∧ StronglySorted string_lt l
            ∧ NoDup l
            ∧ ∀ d, d ∈ l ↔ d ∈ ["b.com"; "a.com"; "a.com"]).
Proof.
  assert (D : yaml.decode (payload payload_cloud)
              = (yaml.mkDoc None None None None None None None None None None
                   None None None None
                   (Some (yaml.mkProxiedSitesDoc None
                            (Some ["b.com"; "a.com"; "a.com"]))) None, None))
    by reflexivity.
  apply (merge_cloud_deduplicated_sorted (payload payload_cloud) cfg_three_servers
           _ _ {| proxiedsites.Delta_ := None;
                  proxiedsites.Cloud := Some ["b.com"; "a.com"; "a.com"] |}
           eq_refl D eq_refl).
Defined.

(** The specification's example, run: a payload with the cloud list
    [b.com, a.com, a.com] leaves the cloud list [a.com, b.com]. *)
Example merge_cloud_example :
  ∃ cfg',
    updateFrom (payload payload_cloud) cfg_three_servers = Ok (None, cfg')
    ∧ (ProxiedSites cfg' ≫= proxiedsites.Cloud) = Some ["a.com"; "b.com"].
Proof.
  exists (set_ProxiedSites (Some cloud_merged)
            (set_TrustedCAs (Some [])
               (set_Client (Some (client.mkClientConfig (Some []) (Some ∅) (Some ∅)))
                  cfg_three_servers))).
  split; reflexivity.
Qed.

(** C10. Merge totality: [updateFrom] should return, a result or an error,
    on every configuration and payload.  On the configuration
    [EmptyConfig] makes, whose client sub-configuration is nil, it panics
    at its first statement, also after [ApplyDefaults] has run (which leaves
    a nil client sub-configuration nil); and on a configuration without
    proxied-sites policy it panics at the length test when the payload
    brings none. *)
Theorem merge_panics_on_nil :
  updateFrom (payload payload_cloud) emptyConfig = Panic nil_dereference
  ∧ (∃ p, ApplyDefaults (mkProcess emptyConfig 0 []) = Ok (tt, p)
          ∧ Client (p_cfg p) = None
          ∧ updateFrom (payload payload_cloud) (p_cfg p) = Panic nil_dereference)
  ∧ updateFrom (payload payload_one_server) (set_ProxiedSites None cfg_three_servers)
    = Panic nil_dereference.
Proof.
  split; [reflexivity|]. split; [|reflexivity].
  exists (mkProcess emptyConfig_defaulted 1 []). repeat split; reflexivity.
Qed.

(** ** The bootstrap race *)

Lemma race_inv_start attempts : race_inv attempts (start attempts).
Proof.
  exists []. simpl. split; [done|]. split; [|done].
  intros _. repeat split. constructor.
Qed.

Lemma race_inv_finish attempts i r r' :
  race_inv attempts r → finish i r = Some r' → race_inv attempts r'.
Proof.
  intros (finished & HP & Hopen & Hshut). unfold finish.
  destruct (running r !! i) as [a|] eqn:Hi; [|done].
  assert (HP' : attempts ≡ₚ (a :: finished) ++ delete i (running r)).
  { rewrite HP. simpl. rewrite Permutation_middle.
    by rewrite <- (delete_Permutation (running r) i a). }
  destruct (delivers a) as [body|] eqn:Hd.
  - unfold once_Do_send. simpl. destruct (once_done r) eqn:Ho.
    + intros [= <-]. exists (a :: finished). simpl.
      split; [done|]. split; [done|]. intros _.
      destruct (Hshut eq_refl) as (b & a' & Hin & Hb & Hwhere).
      exists b, a'. split; [by right|]. done.
    + destruct (Hopen eq_refl) as (Hc & Hr & Hfail). rewrite Hc. simpl.
      intros [= <-]. exists (a :: finished). simpl.
      split; [done|]. split; [done|]. intros _.
      exists body, a. split; [by left|]. split; [done|]. left. done.
  - intros [= <-]. exists (a :: finished). simpl. split; [done|]. split.
    + intros Ho. destruct (Hopen Ho) as (Hc & Hr & Hfail).
      repeat split; try done. by constructor.
    + intros Ho. destruct (Hshut Ho) as (b & a' & Hin & Hb & Hwhere).
      exists b, a'. split; [by right|]. done.
Qed.

Lemma race_inv_receive attempts r r' :
  race_inv attempts r → receive r = Some r' → race_inv attempts r'.
Proof.
  intros (finished & HP & Hopen & Hshut). unfold receive.
  destruct (received r) eqn:Hr; [done|].
  destruct (configs r) as [|body rest] eqn:Hc; [done|].
  intros [= <-]. exists finished. simpl. split; [done|].
  destruct (once_done r) eqn:Ho.
  - split; [done|]. intros _.
    destruct (Hshut eq_refl) as (b & a & Hin & Hb & [[Hc' _]|[Hc' _]]); [|done].
    injection Hc' as -> ->. exists b, a. split; [done|]. split; [done|]. by right.
  - destruct (Hopen eq_refl) as (Hc' & _). done.
Qed.

Lemma race_inv_run attempts schedule r r' :
  race_inv attempts r → run schedule r = Some r' → race_inv attempts r'.
Proof.
  revert r. induction schedule as [|a schedule IH]; intros r Hinv; simpl.
  - by intros [= <-].
  - destruct (act a r) as [r1|] eqn:Ha; [|done]. apply IH.
    destruct a; simpl in Ha.
    + by eapply race_inv_finish.
    + by eapply race_inv_receive.
Qed.

(** No goroutine ever blocks in its send: whoever finds the gate open
    finds the buffer empty. *)
Lemma race_never_blocks attempts schedule r i :
  run schedule (start attempts) = Some r →
  is_Some (running r !! i) → is_Some (finish i r).
Proof.
  intros Hrun [a Ha].
  destruct (race_inv_run _ _ _ _ (race_inv_start attempts) Hrun)
    as (finished & _ & Hopen & _).
  unfold finish. rewrite Ha. destruct (delivers a); [|eauto].
  unfold once_Do_send. simpl. destruct (once_done r); [eauto|].
  destruct (Hopen eq_refl) as (-> & _). simpl. eauto.
Qed.

(** As long as the race is not over, something can happen. *)
Lemma race_progress attempts schedule r :
  run schedule (start attempts) = Some r → terminal r = false →
  ∃ a r', act a r = Some r'.
Proof.
  intros Hrun Ht. destruct (running r) as [|a l] eqn:Hl.
  - unfold terminal in Ht. rewrite Hl in Ht.
    destruct (received r) eqn:Hr; [done|].
    destruct (configs r) as [|body rest] eqn:Hc; [done|].
    exists Receive. simpl. unfold receive. rewrite Hr, Hc. eauto.
  - destruct (race_never_blocks attempts schedule r 0 Hrun) as [r' Hr'].
    { rewrite Hl. simpl. eauto. }
    exists (Finish 0), r'. done.
Qed.




(** ** The poll and the configurations it can reach *)

Section Poll.
Context `{Net} `{yaml.Codec}.

(** A method run at an address writes the receiver it finds there back to
    the same address and touches nothing else. *)
Lemma at_ptr_Ok {A} p (m : M Config A) st a st' :
  at_ptr p m st = Ok (a, st') →
  ∃ c c', heap st !! p = Some c ∧ m c = Ok (a, c')
          ∧ heap st' = <[p := c']> (heap st)
          ∧ lastCloudConfigETag st' = lastCloudConfigETag st.
Proof.
  unfold at_ptr. destruct (heap st !! p) as [c|] eqn:Hp; [|done].
  destruct (m c) as [[a' c']|] eqn:Hm; [|done].
  intros [= <- <-]. exists c, c'. done.
Qed.

Lemma on_etags_Ok {A} (m : M ETags A) st a st' :
  on_etags m st = Ok (a, st') → heap st' = heap st.
Proof.
  unfold on_etags. destruct (m _) as [[a' cache]|]; [|done].
  by intros [= <- <-].
Qed.

Lemma poll_result currentCfg client draw st mutate wait err st' :
  pollWithHttpClient currentCfg client draw st = Ok ((mutate, wait, err), st') →
  heap st' = heap st
  ∧ wait = cloudPollSleepTime draw
  ∧ (does_nothing mutate ∨ (err = None ∧ ∃ bytes, merges bytes mutate)).
Proof.
  unfold pollWithHttpClient. run_M.
  destruct (at_ptr currentCfg _ st) as [[cfg st1]|] eqn:Hget; [|done].
  apply at_ptr_Ok in Hget as (c & c' & Hc & [= <- <-] & Hh & _).
  assert (Hst1 : heap st1 = heap st) by (rewrite Hh; by apply insert_id).
  destruct (CloudConfig c =? "")%string.
  { intros [= <- <- <- <-]. split; [done|]. split; [done|]. by left. }
  destruct (on_etags _ st1) as [[[bytes e] st2]|] eqn:Hfetch; [|done].
  apply on_etags_Ok in Hfetch. rewrite <- Hst1, <- Hfetch.
  destruct e as [e|]; [|destruct bytes as [bytes|]];
    intros [= <- <- <- <-]; (split; [done|]); (split; [done|]).
  - by left.
  - right. split; [done|]. by exists bytes.
  - by left.
Qed.

(** C8. Where the writes of an update go: [pollWithHttpClient] writes to
    no configuration.  The mutation it hands back, called by the manager on
    a configuration, writes to that configuration and to no other, and
    creates none: it does nothing, or it is [updateFrom] run in place, the
    object it was called on holding the merged configuration afterwards.
    The current configuration is therefore untouched when the manager
    calls the mutation on another object (its copy), and overwritten when
    it calls it on the current configuration itself. *)
Theorem poll_writes_only_through_mutation
  currentCfg client draw st mutate wait err st' :
  pollWithHttpClient currentCfg client draw st = Ok ((mutate, wait, err), st') →
  heap st' = heap st
  ∧ ∀ ycfg st1 r st2,
      mutate ycfg st1 = Ok (r, st2) →
      lastCloudConfigETag st2 = lastCloudConfigETag st1
      ∧ (∀ q, q ≠ ycfg → heap st2 !! q = heap st1 !! q)
      ∧ dom (heap st2) = dom (heap st1)
      ∧ (heap st2 = heap st1
         ∨ ∃ bytes c c',
             heap st1 !! ycfg = Some c
             ∧ updateFrom bytes c = Ok (r, c')
             ∧ heap st2 !! ycfg = Some c').
Proof.
  intros Hpoll. apply poll_result in Hpoll as (Hh & _ & Hmut).
  split; [done|]. intros ycfg st1 r st2 Hrun.
  destruct Hmut as [Hnone|(_ & bytes & Hmerge)].
  - rewrite Hnone in Hrun. injection Hrun as <- <-. repeat split; by left.
  - rewrite Hmerge in Hrun.
    apply at_ptr_Ok in Hrun as (c & c' & Hc & Hm & Hh2 & He).
    split; [done|]. rewrite Hh2. split; [|split].
    + intros q Hq. by rewrite lookup_insert_ne.
    + rewrite dom_insert_L. apply elem_of_dom_2 in Hc.
      apply subseteq_union_1_L. by apply singleton_subseteq_l.
    + right. exists bytes, c, c'. by rewrite lookup_insert_eq.
Qed.

End Poll.

Lemma poll_writes_only_through_mutation_witness :
  let st := mkStore {[0%nat := cfg_three_servers]} cache_v1 in
  let st' := mkStore {[0%nat := cfg_three_servers]} (<[example_url := "v2"]> cache_v1) in
  let mutate : Mutation := λ ycfg, at_ptr ycfg (updateFrom (payload payload_cloud)) in
  heap st' = heap st
  ∧ ∀ ycfg st1 r st2,
      mutate ycfg st1 = Ok (r, st2) →
      lastCloudConfigETag st2 = lastCloudConfigETag st1
      ∧ (∀ q, q ≠ ycfg → heap st2 !! q = heap st1 !! q)
      ∧ dom (heap st2) = dom (heap st1)
      ∧ (heap st2 = heap st1
         ∨ ∃ bytes c c',
             heap st1 !! ycfg = Some c
             ∧ updateFrom bytes c = Ok (r, c')
             ∧ heap st2 !! ycfg = Some c').
Proof.
  intros st st' mutate.
  apply (poll_writes_only_through_mutation 0%nat (λ _, inr resp_200) 7 st mutate
           (cloudPollSleepTime 7) None st').
  reflexivity.
Defined.

(** The claim C8 as it is worded fails: the mutation of a poll that
    fetched the cloud list, called on the configuration at address 0,
    leaves the merged configuration at address 0, where the proxied-sites
    list, the chained servers and the trusted CAs of the configuration have
    changed, and the store holds no other configuration. *)
Lemma merge_overwrites_its_receiver :
  let st := mkStore {[0%nat := cfg_three_servers]} cache_v1 in
  match pollWithHttpClient 0%nat (λ _, inr resp_200) 7 st with
  | Ok ((mutate, _, _), st') =>
    heap st' = {[0%nat := cfg_three_servers]}
    ∧ mutate 0%nat st'
      = Ok (None, mkStore {[0%nat := cfg_cloud_merged]}
                    (<[example_url := "v2"]> cache_v1))
  | Panic _ => False
  end
  ∧ TrustedCAs cfg_three_servers
    = Some [{| CommonName := "Example Root"; Cert := "PEM-1" |}]
  ∧ TrustedCAs cfg_cloud_merged = Some []
  ∧ cfg_cloud_merged ≠ cfg_three_servers.
Proof.
  split; [|split; [reflexivity|split; [reflexivity|]]].
  - vm_compute. split; reflexivity.
  - intros E. apply (f_equal TrustedCAs) in E. discriminate E.
Qed.

(** ** The defaulting pass *)

Lemma leaves_seq {S A B} (P Q R : S → Prop) (m1 : M S A) (m2 : M S B) :
  leaves P m1 Q → leaves Q m2 R → leaves P (m1 ;; m2) R.
Proof.
  intros H1 H2 s b s' HP. unfold mbind, M_bind, bind.
  destruct (m1 s) as [[a s1]|] eqn:E1; [|done].
  intros Hrun. eapply H2; [|exact Hrun]. by eapply H1.
Qed.

Lemma keeps_seq {S} (P : S → Prop) (m1 m2 : M S unit) :
  keeps P m1 → keeps P m2 → keeps P (m1 ;; m2).
Proof.
  intros H1 H2 s HP. unfold mbind, M_bind, bind. rewrite (H1 s HP). by apply H2.
Qed.

Lemma string_eqb_false (s t : string) : (s =? t)%string = false ↔ s ≠ t.
Proof. apply String.eqb_neq. Qed.

Lemma len_zero_nil {A} (s : option (list A)) :
  (is_nil s || (len s =? 0)) = true ↔ len s = 0.
Proof.
  destruct s as [l|]; simpl; [|done]. by rewrite Z.eqb_eq.
Qed.

(** *** The loop over the fronted servers *)

Lemma default_server_fields s :
  default_server s
  = {| client.Host := client.Host s; client.Port := client.Port s;
       client.PoolSize := client.PoolSize s;
       client.MasqueradeSet := client.MasqueradeSet s;
       client.MaxMasquerades := client.MaxMasquerades s;
       client.QOS := if client.QOS s =? 0 then 5 else client.QOS s;
       client.Weight := if client.Weight s =? 0 then 100 else client.Weight s;
       client.Trusted := client.Trusted s;
       client.RedialAttempts :=
         if client.RedialAttempts s =? 0 then 2 else client.RedialAttempts s |}.
Proof.
  destruct s as [h p ps m mm q w t r].
  cbv [default_server client.set_QOS client.set_Weight client.set_RedialAttempts
       client.QOS client.Weight client.RedialAttempts client.Host client.Port
       client.PoolSize client.MasqueradeSet client.MaxMasquerades client.Trusted].
  destruct (q =? 0), (w =? 0), (r =? 0); reflexivity.
Qed.

Lemma default_server_idem s : default_server (default_server s) = default_server s.
Proof.
  rewrite (default_server_fields (default_server s)), (default_server_fields s).
  destruct s as [h p ps m mm q w t r]. simpl.
  destruct (q =? 0) eqn:Eq, (w =? 0) eqn:Ew, (r =? 0) eqn:Er;
    rewrite ?Eq, ?Ew, ?Er; reflexivity.
Qed.

Lemma settled_Forall l :
  settled l ↔ Forall (λ o, ∃ s, o = Some s ∧ default_server s = s) l.
Proof.
  unfold settled. induction l as [|[s|] l IH]; simpl.
  - split; [constructor|done].
  - destruct (range_servers l) as [l'|] eqn:E.
    + split.
      * intros [= Es El]. constructor; [eauto|]. apply IH. by rewrite El.
      * intros Hf. apply Forall_cons in Hf as [(s' & [= <-] & Hs) Hl].
        apply IH in Hl. injection Hl as ->. by rewrite Hs.
    + split; [done|]. intros Hf. apply Forall_cons in Hf as [_ Hl].
      by apply IH in Hl.
  - split; [done|]. intros Hf. apply Forall_cons in Hf as [(s & Hs & _) _]. done.
Qed.

Lemma range_servers_settled l l' : range_servers l = Some l' → settled l'.
Proof.
  revert l'. induction l as [|[s|] l IH]; intros l'; simpl.
  - by intros [= <-].
  - destruct (range_servers l) as [r|]; [|done]. intros [= <-].
    unfold settled. simpl. rewrite (IH r eq_refl), default_server_idem. done.
  - done.
Qed.

Lemma settled_perm l l' : l ≡ₚ l' → settled l → settled l'.
Proof. rewrite !settled_Forall. by intros ->. Qed.

Section Defaults.
Context {builtins : Builtins} {order : ServerOrder}.

Ltac run_step :=
  unfold when_, on_cfg, range_FrontedServers, MasqueradeSets_store,
    Client_read, Client_write, Stats_read, Stats_write,
    ProxiedSites_read, ProxiedSites_write, uuid_New, launcher_CreateLaunchFile,
    mbind, M_bind, bind, mret, M_ret, ret, modify, get, gets, panic;
  simpl.

(** *** A defaulted configuration is left as it is *)

Lemma keeps_applyClientDefaults :
  keeps (λ p, ∃ c, Client (p_cfg p) = Some c ∧ ClientDefaulted (p_cfg p) c)
        applyClientDefaults.
Proof.
  unfold applyClientDefaults. repeat apply keeps_seq;
    intros [cfg u l] (c & Hc & (sets & Hsets & Hsize) & (fs & Hfs & Hset & Hord)
                      & [cs Hcs] & [ar Har] & [al Hal]);
    simpl in *; run_step; rewrite ?Hc; simpl.
  - by rewrite Hsets.
  - rewrite Hsets. unfold len_map. simpl.
    destruct (Z.of_nat (size sets) =? 0) eqn:E; [|done].
    apply Z.eqb_eq in E. lia.
  - by rewrite Hfs.
  - by destruct (_ && _).
  - by rewrite Har.
  - by rewrite Hal.
  - rewrite Hfs. simpl. unfold settled in Hset. rewrite Hset, Hc.
    destruct cfg, c; simpl in *; by subst.
  - by rewrite Hcs.
  - unfold SortServers. rewrite Hfs. simpl. rewrite Hord.
    destruct cfg, c; simpl in *; by subst.
Qed.

Lemma keeps_ApplyDefaults : keeps (λ p, Defaulted (p_cfg p)) ApplyDefaults.
Proof.
  unfold ApplyDefaults. repeat apply keeps_seq;
    intros [cfg u l] HD; pose proof HD as HD';
    destruct HD' as (H1 & H2 & H3 & H4 & H5 & (s & Hs & Hstat) & Hcl
                    & (ps & Hps & Hcloud) & Hcas);
    simpl in *.
  1-7, 9-11: run_step.
  - apply string_eqb_false in H1. by rewrite H1.
  - apply string_eqb_false in H2. by rewrite H2.
  - apply string_eqb_false in H3. by rewrite H3.
  - apply string_eqb_false in H4. by rewrite H4.
  - apply string_eqb_false in H5. by rewrite H5.
  - by rewrite Hs.
  - rewrite Hs. simpl. destruct (_ =? _)%string eqn:E; [|done].
    simpl. rewrite Hs. apply String.eqb_eq in E. rewrite (Hstat E).
    destruct cfg, s; simpl in *. by subst.
  - by rewrite Hps.
  - rewrite Hps. simpl.
    destruct (_ || _) eqn:E; [|done]. simpl. rewrite Hps.
    apply len_zero_nil in E. rewrite <- (Hcloud E).
    destruct cfg, ps; simpl in *; by subst.
  - destruct (_ || _) eqn:E; [|done]. simpl.
    apply len_zero_nil in E. rewrite <- (Hcas E).
    by destruct cfg.
  - unfold when_. run_M.
    destruct (Client cfg) as [c|] eqn:Hc; simpl; [|done].
    destruct (Role cfg =? "client")%string eqn:Hr; [|done].
    apply String.eqb_eq in Hr.
    apply (keeps_applyClientDefaults (mkProcess cfg u l)).
    exists c. split; [done|]. by apply Hcl.
Qed.
(** *** A pass over any configuration leaves it defaulted *)

(** What the collaborators are relied on for: [uuid.New] never hands out
    the empty string, and [SortServers] permutes the list into an order
    that sorting again leaves alone. *)
Hypothesis uuid_nonempty : ∀ n, uuid_gen n ≠ "".
Hypothesis order_perm : ∀ l, servers_order l ≡ₚ l.
Hypothesis order_idem : ∀ l, servers_order (servers_order l) = servers_order l.

(** Carry the facts of the statements already run over one more
    statement; what is left is the fact the statement brings. *)
Ltac carry :=
  unfold defaulted_upto, outside_client in *; simpl in *;
  repeat match goal with H : _ ∧ _ |- _ => destruct H end;
  repeat apply conj; intros ?Hle;
  try (exfalso; lia);
  try match goal with Hold : (_ ≤ _)%nat → ?P |- ?P => apply Hold; lia end.

Lemma defaulted_upto_0 cfg : defaulted_upto 0 cfg.
Proof. unfold defaulted_upto. repeat apply conj; intros Hle; exfalso; lia. Qed.

Lemma defaulted_upto_11 cfg : defaulted_upto 11 cfg → Defaulted cfg.
Proof.
  unfold defaulted_upto, Defaulted.
  intros (H1 & H2 & H3 & H4 & H5 & H6 & H7 & H8 & H9 & H10 & H11).
  repeat apply conj; first [apply H1|apply H2|apply H3|apply H4|apply H5
                           |apply H7|apply H8|apply H10|apply H11]; lia.
Qed.

(** *** What [applyClientDefaults] leaves *)

Ltac client_step Hpre c Hc :=
  let t := fresh "Ht" in
  intros [cfg u l] a [cfg' u' l'] Hpre; simpl in Hpre;
  destruct Hpre as (t & c & Hc & Hpre); run_step; rewrite ?Hc; simpl.

Ltac client_goal :=
  simpl; unfold outside_client in *; simpl;
  split; [done|]; eexists; split; [first [reflexivity|eassumption]|];
  repeat match goal with H : _ ∧ _ |- _ => destruct H end;
  repeat apply conj; intros ?Hle;
  try (exfalso; lia);
  try match goal with Hold : (_ ≤ _)%nat → ?P |- ?P => apply Hold; lia end.

Ltac client_next k :=
  eapply (leaves_seq _ (λ p, outside_client (p_cfg p) = _
                             ∧ client_defaulted_upto k (p_cfg p))).

Lemma leaves_applyClientDefaults t :
  leaves (λ p, outside_client (p_cfg p) = t ∧ client_defaulted_upto 0 (p_cfg p))
         applyClientDefaults
         (λ p, outside_client (p_cfg p) = t ∧ client_defaulted_upto 9 (p_cfg p)).
Proof.
  unfold applyClientDefaults.
  client_next 1%nat.
  { client_step Hpre c Hc.
    destruct (client.MasqueradeSets c) eqn:E; simpl; rewrite ?Hc; simpl;
      intros ?; simplify_eq; client_goal.
    all: simpl; rewrite ?E; eauto. }
  client_next 2%nat.
  { client_step Hpre c Hc.
    destruct (len_map (client.MasqueradeSets c) =? 0) eqn:E; simpl; rewrite ?Hc; simpl.
    - destruct (client.MasqueradeSets c) as [m|] eqn:Em; simpl; rewrite ?Hc; simpl;
        [|done].
      intros ?; simplify_eq; client_goal; simpl; [eauto|].
      eexists. split; [done|]. intros Hz. apply map_size_empty_iff in Hz.
      by apply insert_non_empty in Hz.
    - intros ?; simplify_eq; client_goal.
      destruct (client.MasqueradeSets c) as [m|] eqn:Em; [|done].
      exists m. split; [done|]. unfold len_map in E. simpl in E.
      apply Z.eqb_neq in E. lia. }
  client_next 3%nat.
  { client_step Hpre c Hc.
    destruct (client.FrontedServers c) eqn:E; simpl; rewrite ?Hc; simpl;
      intros ?; simplify_eq; client_goal.
    all: simpl; rewrite ?E; eauto. }
  client_next 4%nat.
  { client_step Hpre c Hc.
    destruct (_ && _); simpl; intros ?; simplify_eq; client_goal. }
  client_next 5%nat.
  { client_step Hpre c Hc.
    destruct (AutoReport cfg) eqn:E; simpl; intros ?; simplify_eq; client_goal.
    all: simpl; rewrite ?E; eauto. }
  client_next 6%nat.
  { client_step Hpre c Hc.
    destruct (AutoLaunch cfg) eqn:E; simpl; intros ?; simplify_eq; client_goal.
    all: simpl; rewrite ?E; eauto. }
  client_next 7%nat.
  { client_step Hpre c Hc.
    destruct (client.FrontedServers c) as [fs|] eqn:E; simpl.
    - destruct (range_servers fs) as [fs'|] eqn:Er; simpl; rewrite ?Hc; simpl;
        [|done].
      intros ?; simplify_eq; client_goal; simpl; [eauto|].
      exists fs'. split; [done|]. by eapply range_servers_settled.
    - intros _. exfalso.
      destruct Hpre as (_ & _ & Hfs & _). destruct Hfs as [? ?]; [lia|].
      congruence. }
  client_next 8%nat.
  { client_step Hpre c Hc.
    destruct (client.ChainedServers c) eqn:E; simpl; rewrite ?Hc; simpl;
      intros ?; simplify_eq; client_goal.
    all: simpl; rewrite ?E; eauto. }
  client_step Hpre c Hc. intros ?; simplify_eq.
  destruct Hpre as (H1 & H2 & H3 & H5 & H6 & H7 & H8 & _).
  destruct H7 as (fs & Hfs & Hset); [lia|].
  unfold outside_client in *. simpl. split; [done|].
  eexists. split; [reflexivity|]. unfold SortServers. rewrite Hfs. simpl.
  repeat apply conj; intros _; simpl;
    try (first [apply H1|apply H2|apply H3|apply H5|apply H6|apply H8]; lia).
  - eauto.
  - exists (servers_order fs). split; [done|].
    eapply settled_perm; [|exact Hset]. symmetry. apply order_perm.
  - exists (servers_order fs). split; [done|]. apply order_idem.
Qed.

(** *** What [ApplyDefaults] leaves *)

Ltac outer_step Hpre :=
  intros [cfg u l] a [cfg' u' l'] Hpre; simpl in Hpre; run_step.

Ltac next k := eapply (leaves_seq _ (λ p, defaulted_upto k (p_cfg p))).

Lemma leaves_ApplyDefaults :
  leaves (λ p, defaulted_upto 0 (p_cfg p)) ApplyDefaults
         (λ p, defaulted_upto 11 (p_cfg p)).
Proof.
  unfold ApplyDefaults.
  next 1%nat.
  { outer_step Hpre.
    destruct (Role cfg =? "")%string eqn:E; intros ?; simplify_eq; carry;
      [done|by apply string_eqb_false]. }
  next 2%nat.
  { outer_step Hpre.
    destruct (Addr cfg =? "")%string eqn:E; intros ?; simplify_eq; carry;
      [done|by apply string_eqb_false]. }
  next 3%nat.
  { outer_step Hpre.
    destruct (UIAddr cfg =? "")%string eqn:E; intros ?; simplify_eq; carry;
      [done|by apply string_eqb_false]. }
  next 4%nat.
  { outer_step Hpre.
    destruct (CloudConfig cfg =? "")%string eqn:E; intros ?; simplify_eq; carry;
      [done|by apply string_eqb_false]. }
  next 5%nat.
  { outer_step Hpre.
    destruct (InstanceId cfg =? "")%string eqn:E; intros ?; simplify_eq; carry;
      [apply uuid_nonempty|by apply string_eqb_false]. }
  next 6%nat.
  { outer_step Hpre.
    destruct (Stats cfg) eqn:E; simpl; intros ?; simplify_eq; carry.
    all: simpl; rewrite ?E; eauto. }
  next 7%nat.
  { outer_step Hpre.
    destruct (Stats cfg) as [s|] eqn:Es; simpl; [|done].
    destruct (statreporter.StatshubAddr s =? "")%string eqn:E; simpl;
      rewrite ?Es; simpl; intros ?; simplify_eq; carry.
    - simpl. eauto.
    - simpl. eexists. split; [done|]. done.
    - exists s. split; [done|]. apply String.eqb_neq in E. done. }
  next 8%nat.
  { outer_step Hpre.
    destruct (Client cfg) as [c|] eqn:Hc; simpl;
      [destruct (Role cfg =? "client")%string eqn:Hr; simpl|].
    - intros Hrun.
      apply (leaves_applyClientDefaults (outside_client cfg)) in Hrun
        as [Ht (c' & Hc' & K1 & K2 & K3 & K5 & K6 & K7 & K8 & K9)].
      2:{ simpl. split; [done|]. exists c. split; [done|].
          repeat apply conj; intros; lia. }
      simpl in *. unfold outside_client in Ht.
      injection Ht as ERole EAddr EUI ECloud EInst EStats EPs ECas.
      unfold defaulted_upto in *.
      destruct Hpre as (D1 & D2 & D3 & D4 & D5 & D6 & D7 & _).
      rewrite ERole, EAddr, EUI, ECloud, EInst, EStats.
      repeat apply conj; intros Hle; try (exfalso; lia);
        try (first [apply D1|apply D2|apply D3|apply D4|apply D5|apply D6|apply D7];
             lia).
      intros c'' Hc'' _. simplify_eq. unfold ClientDefaulted.
      destruct K7 as (fs & Hfs & Hset); [lia|].
      destruct K9 as (fs' & Hfs' & Hord); [lia|]. simplify_eq.
      repeat apply conj; eauto with lia.
    - intros ?; simplify_eq; carry.
      intros c' _ Hrole. rewrite Hrole in Hr. done.
    - intros ?; simplify_eq; carry. intros c' Hc'. congruence. }
  next 9%nat.
  { outer_step Hpre.
    destruct (ProxiedSites cfg) eqn:E; simpl; intros ?; simplify_eq; carry.
    all: simpl; rewrite ?E; eauto. }
  next 10%nat.
  { outer_step Hpre.
    destruct (ProxiedSites cfg) as [ps|] eqn:Eps; simpl; [|done].
    destruct (_ || _) eqn:E; simpl; rewrite ?Eps; simpl;
      intros ?; simplify_eq; carry.
    - simpl. eauto.
    - simpl. eexists. split; [done|]. done.
    - exists ps. split; [done|]. intros Hz. apply len_zero_nil in Hz. congruence. }
  outer_step Hpre.
  destruct (_ || _) eqn:E; simpl; intros ?; simplify_eq; carry.
  - done.
  - intros Hz. apply len_zero_nil in Hz. congruence.
Qed.

(** C7. Defaults idempotence: for every starting configuration, applying
    the defaults twice gives what applying them once gives (the same
    configuration, and no further identifier drawn or launch file created;
    a panic of the first pass is the panic of the two), as long as
    [uuid.New] never hands out the empty string and [SortServers] puts the
    fronted servers in an order that sorting again does not change. *)
Theorem ApplyDefaults_idempotent p :
  (ApplyDefaults ;; ApplyDefaults) p = ApplyDefaults p.
Proof.
  unfold mbind, M_bind, bind.
  destruct (ApplyDefaults p) as [[[] p']|] eqn:E; [|done].
  apply keeps_ApplyDefaults, defaulted_upto_11.
  eapply leaves_ApplyDefaults; [|exact E]. apply defaulted_upto_0.
Qed.

End Defaults.

(** The order of the examples is one such order. *)

Lemma insert_by_host_perm s l : insert_by_host s l ≡ₚ s :: l.
Proof.
  induction l as [|t l IH]; simpl; [done|].
  destruct (String.leb _ _); [done|]. rewrite IH. apply perm_swap.
Qed.

Lemma example_order_perm l : servers_order l ≡ₚ l.
Proof.
  simpl. induction l as [|s l IH]; simpl; [done|].
  rewrite insert_by_host_perm. by constructor.
Qed.

Lemma insert_by_host_sorted s l :
  StronglySorted host_le l → StronglySorted host_le (insert_by_host s l).
Proof.
  induction 1 as [|t l Hs IH Ht]; simpl.
  - repeat constructor.
  - destruct (String.leb _ _) eqn:E.
    + constructor; [by constructor|]. constructor; [done|].
      eapply Forall_impl; [exact Ht|]. intros z Hz.
      unfold host_le in *. by eapply string_le_trans.
    + constructor; [done|].
      assert (Hts : host_le t s).
      { unfold host_le. destruct (string_le_total (from_option client.Host "" s)
                                    (from_option client.Host "" t)) as [Hst|]; [|done].
        unfold string_le in Hst. congruence. }
      rewrite insert_by_host_perm. by constructor.
Qed.

Lemma example_order_sorted l : StronglySorted host_le (servers_order l).
Proof.
  simpl. induction l as [|s l IH]; simpl; [constructor|].
  by apply insert_by_host_sorted.
Qed.

Lemma sorted_by_host_fixed l : StronglySorted host_le l → servers_order l = l.
Proof.
  simpl. induction 1 as [|s l Hs IH Hl]; simpl; [done|]. rewrite IH.
  destruct l as [|t l]; simpl; [done|].
  apply Forall_cons in Hl as [Hst _]. unfold host_le, string_le in Hst.
  by rewrite Hst.
Qed.

Lemma example_order_idem l : servers_order (servers_order l) = servers_order l.
Proof. apply sorted_by_host_fixed, example_order_sorted. Qed.

Lemma example_uuid_nonempty n : uuid_gen n ≠ "".
Proof. simpl. discriminate. Qed.

Lemma ApplyDefaults_idempotent_witness :
  (ApplyDefaults ;; ApplyDefaults) (mkProcess cfg_bare 0 [])
  = ApplyDefaults (mkProcess cfg_bare 0 []).
Proof.
  apply (@ApplyDefaults_idempotent example_builtins example_order
           example_uuid_nonempty example_order_perm example_order_idem).
Defined.

(** The pass on a configuration with two fronted servers and nothing
    else: the server without quality of service, weight and redial
    attempts gets 5, 100 and 2, the servers come out ordered by host, one
    identifier is drawn and one launch file created; the client
    sub-configuration gets its masquerade set and its empty server map. *)
Example ApplyDefaults_example :
  ApplyDefaults (mkProcess cfg_bare 0 []) = Ok (tt, mkProcess cfg_bare_defaulted 1 [true]).
Proof. vm_compute. reflexivity. Qed.

(* ================================================================= *)
(** * Part III: further properties of the code *)
(* ================================================================= *)

(** ** More on the fetch *)

Section FetchMore.
Context `{Net}.

(** X1. [fetchCloudConfig] always returns, and of the ETag cache it can
    only change the entry of the URL it fetches, and that only when the
    transport answered with status 200 (the entry then holds the token of
    that answer); a body comes back only from such an answer. *)
Theorem fetch_writes_own_entry_on_200 client url authToken cache :
  ∃ result cache',
    fetchCloudConfig client url authToken cache = Ok (result, cache')
    ∧ (∀ url', url' ≠ url → cache' !! url' = cache !! url')
    ∧ (cache' = cache
       ∨ ∃ req resp, client req = inr resp ∧ StatusCode resp = 200
           ∧ cache' = <[url := Header_Get (resp_Header resp) etag]> cache)
    ∧ (is_Some (fst result) →
       ∃ req resp, client req = inr resp ∧ StatusCode resp = 200).
Proof.
  destruct (url_parse_error url) as [err|] eqn:Hurl.
  { rewrite (fetch_bad_url_keeps_cache _ _ _ _ err) by done.
    do 2 eexists. split; [done|]. split; [done|]. split; [by left|].
    by intros [? ?]. }
  destruct (fetch_request client url authToken cache Hurl) as (req & -> & _).
  destruct (client req) as [err|resp] eqn:Hans.
  { do 2 eexists. split; [done|]. split; [done|]. split; [by left|].
    by intros [? ?]. }
  destruct (decide (StatusCode resp = 304)) as [E304|N304].
  { rewrite read_304 by done.
    do 2 eexists. split; [done|]. split; [done|]. split; [by left|].
    by intros [? ?]. }
  destruct (decide (StatusCode resp = 200)) as [E200|N200].
  - rewrite read_200 by done. do 2 eexists. split; [done|]. split.
    { intros url' Hne. by rewrite lookup_insert_ne. }
    split; [right|]; eauto.
  - rewrite read_other_status by done.
    do 2 eexists. split; [done|]. split; [done|]. split; [by left|].
    by intros [? ?].
Qed.

End FetchMore.

(** ** More on the poll *)

Section PollMore.
Context `{Net} `{yaml.Codec}.

Lemma at_ptr_get p st cfg :
  heap st !! p = Some cfg → at_ptr p get st = Ok (cfg, st).
Proof.
  intros Hp. unfold at_ptr, get. rewrite Hp. destruct st as [h c]. simpl in *.
  by rewrite insert_id.
Qed.

(** X2. A configuration without cloud URL is polled without any network
    work: the transport is not used, the store (configurations and ETag
    cache) is left as it is, and the poll hands back a mutation that does
    nothing, the wait, and no error. *)
Theorem poll_without_url_does_nothing currentCfg client draw st cfg :
  heap st !! currentCfg = Some cfg →
  CloudConfig cfg = "" →
  ∃ mutate,
    pollWithHttpClient currentCfg client draw st
    = Ok ((mutate, cloudPollSleepTime draw, None), st)
    ∧ does_nothing mutate.
Proof.
  intros Hp Hurl. unfold pollWithHttpClient, mbind, M_bind, bind.
  rewrite (at_ptr_get _ _ cfg Hp), Hurl. simpl.
  eexists. split; [reflexivity|]. done.
Qed.

(** X3. What a poll hands back, by what the transport answers to the
    request of the poll (a GET for the cloud URL of the configuration,
    with the cached token of that URL when there is one): a
    transport error or a status other than 200 and 304 gives the error and
    a mutation that does nothing, the store unchanged; a 304 gives no error
    and a mutation that does nothing, the store unchanged; a 200 whose body
    decompresses gives no error and the mutation that merges the body, the
    token of the answer being cached; a 200 whose body does not open gives
    the error and a mutation that does nothing, with the token of the
    answer cached all the same.  The wait is the same in every case. *)
Theorem poll_by_answer currentCfg client draw st cfg answer :
  heap st !! currentCfg = Some cfg →
  CloudConfig cfg ≠ "" →
  url_parse_error (CloudConfig cfg) = None →
  (∀ req,
     req_Method req = "GET" → req_URL req = CloudConfig cfg →
     req_Header req !! ifNoneMatch
     = (if (etag_of (lastCloudConfigETag st) (CloudConfig cfg) =? "")%string
        then None else Some (etag_of (lastCloudConfigETag st) (CloudConfig cfg))) →
     client req = answer) →
  ∃ mutate err st',
    pollWithHttpClient currentCfg client draw st
    = Ok ((mutate, cloudPollSleepTime draw, err), st')
    ∧ heap st' = heap st
    ∧ match answer with
      | inl cause =>
        err = Some (ErrFetch (CloudConfig cfg) cause) ∧ does_nothing mutate ∧ st' = st
      | inr resp =>
        if decide (StatusCode resp = 304) then
          err = None ∧ does_nothing mutate ∧ st' = st
        else if decide (StatusCode resp = 200) then
          lastCloudConfigETag st'
          = <[CloudConfig cfg := Header_Get (resp_Header resp) etag]>
              (lastCloudConfigETag st)
          ∧ match gunzip (Body resp) with
            | GzHeaderError cause =>
              err = Some (ErrOpenGzip cause) ∧ does_nothing mutate
            | GzRead data None => err = None ∧ merges data mutate
            | GzRead data (Some cause) =>
              err = Some (ErrForeign cause) ∧ does_nothing mutate
            end
        else
          err = Some (ErrUnexpectedStatus (StatusCode resp))
          ∧ does_nothing mutate ∧ st' = st
      end.
Proof.
  intros Hp Hne Hurl Hans. unfold pollWithHttpClient, mbind, M_bind, bind.
  rewrite (at_ptr_get _ _ cfg Hp). apply String.eqb_neq in Hne. rewrite Hne.
  unfold on_etags. destruct st as [h cache]. simpl in *.
  destruct (fetch_request client (CloudConfig cfg) "" cache Hurl)
    as (req & -> & HURL & Hmethod & _ & _ & Hetag & _).
  rewrite (Hans req Hmethod HURL Hetag).
  destruct answer as [cause|resp].
  - do 3 eexists. split; [reflexivity|]. done.
  - destruct (decide (StatusCode resp = 304)) as [E304|N304].
    { rewrite read_304 by done. do 3 eexists. split; [reflexivity|]. done. }
    destruct (decide (StatusCode resp = 200)) as [E200|N200].
    + rewrite read_200 by done.
      destruct (gunzip (Body resp)) as [cause|data [cause|]]; simpl;
        do 3 eexists; (split; [reflexivity|]); done.
    + rewrite read_other_status by done.
      do 3 eexists. split; [reflexivity|]. done.
Qed.

End PollMore.

(** ** More on the merge *)

Lemma strictly_sorted_NoDup l : StronglySorted string_lt l → NoDup l.
Proof.
  induction 1 as [|x l Hs IH Hx]; constructor; [|done].
  intros Hin. eapply Forall_forall in Hx; [|exact Hin].
  apply string_lt_le_ne in Hx as [_ Hne]. done.
Qed.

Lemma strictly_sorted_le l : StronglySorted string_lt l → StronglySorted string_le l.
Proof.
  induction 1 as [|x l Hs IH Hx]; constructor; [done|].
  eapply Forall_impl; [exact Hx|]. intros y Hy. by apply string_lt_le_ne in Hy as [? _].
Qed.

(** A list that is already in strictly increasing order comes out of the
    deduplication block as it went in. *)
Lemma dedup_sorted_fixed l : StronglySorted string_lt l → dedup_sorted l = l.
Proof.
  intros Hs. destruct (range_keys_wlDomains l) as [Hnd Hin]. simpl in *.
  unfold dedup_sorted. rewrite append_each. simpl.
  apply sorted_perm_unique; [apply sort_Strings_sorted|by apply strictly_sorted_le|].
  rewrite sort_Strings_perm. apply NoDup_Permutation; [done| |done].
  by apply strictly_sorted_NoDup.
Qed.

Lemma dedup_sorted_idem l : dedup_sorted (dedup_sorted l) = dedup_sorted l.
Proof. apply dedup_sorted_fixed, dedup_sorted_spec. Qed.

Lemma deduplicated_idem cfg : deduplicated (deduplicated cfg) = deduplicated cfg.
Proof.
  unfold deduplicated. destruct (ProxiedSites cfg) as [p|] eqn:Hp; [|by rewrite Hp].
  destruct (0 <? len (proxiedsites.Cloud p)) eqn:Hl; [|by rewrite Hp, Hl].
  simpl. destruct (0 <? len (Some (dedup_sorted _))) eqn:Hl'; [|done].
  simpl. by rewrite dedup_sorted_idem.
Qed.


Lemma Config_ext (c1 c2 : Config) :
  Version c1 = Version c2 → CloudConfig c1 = CloudConfig c2 →
  CloudConfigCA c1 = CloudConfigCA c2 → Addr c1 = Addr c2 → Role c1 = Role c2 →
  InstanceId c1 = InstanceId c2 → CpuProfile c1 = CpuProfile c2 →
  MemProfile c1 = MemProfile c2 → UIAddr c1 = UIAddr c2 →
  AutoReport c1 = AutoReport c2 → AutoLaunch c1 = AutoLaunch c2 →
  Stats c1 = Stats c2 → Server c1 = Server c2 → Client c1 = Client c2 →
  ProxiedSites c1 = ProxiedSites c2 → TrustedCAs c1 = TrustedCAs c2 →
  c1 = c2.
Proof. destruct c1, c2. simpl. intros. by subst. Qed.

Ltac field_of_deduplicated :=
  intros cfg; unfold deduplicated;
  destruct (ProxiedSites cfg) as [p|]; [|done];
  by destruct (0 <? len (proxiedsites.Cloud p)).

Lemma Version_deduplicated : ∀ cfg, Version (deduplicated cfg) = Version cfg.
Proof. field_of_deduplicated. Qed.
Lemma CloudConfig_deduplicated : ∀ cfg, CloudConfig (deduplicated cfg) = CloudConfig cfg.
Proof. field_of_deduplicated. Qed.
Lemma CloudConfigCA_deduplicated :
  ∀ cfg, CloudConfigCA (deduplicated cfg) = CloudConfigCA cfg.
Proof. field_of_deduplicated. Qed.
Lemma Addr_deduplicated : ∀ cfg, Addr (deduplicated cfg) = Addr cfg.
Proof. field_of_deduplicated. Qed.
Lemma Role_deduplicated : ∀ cfg, Role (deduplicated cfg) = Role cfg.
Proof. field_of_deduplicated. Qed.
Lemma InstanceId_deduplicated : ∀ cfg, InstanceId (deduplicated cfg) = InstanceId cfg.
Proof. field_of_deduplicated. Qed.
Lemma CpuProfile_deduplicated : ∀ cfg, CpuProfile (deduplicated cfg) = CpuProfile cfg.
Proof. field_of_deduplicated. Qed.
Lemma MemProfile_deduplicated : ∀ cfg, MemProfile (deduplicated cfg) = MemProfile cfg.
Proof. field_of_deduplicated. Qed.
Lemma UIAddr_deduplicated : ∀ cfg, UIAddr (deduplicated cfg) = UIAddr cfg.
Proof. field_of_deduplicated. Qed.
Lemma AutoReport_deduplicated : ∀ cfg, AutoReport (deduplicated cfg) = AutoReport cfg.
Proof. field_of_deduplicated. Qed.
Lemma AutoLaunch_deduplicated : ∀ cfg, AutoLaunch (deduplicated cfg) = AutoLaunch cfg.
Proof. field_of_deduplicated. Qed.
Lemma Stats_deduplicated : ∀ cfg, Stats (deduplicated cfg) = Stats cfg.
Proof. field_of_deduplicated. Qed.
Lemma Server_deduplicated : ∀ cfg, Server (deduplicated cfg) = Server cfg.
Proof. field_of_deduplicated. Qed.
Lemma ProxiedSites_deduplicated :
  ∀ cfg, ProxiedSites (deduplicated cfg) = dedup_policy (ProxiedSites cfg).
Proof.
  intros cfg. unfold deduplicated, dedup_policy.
  destruct (ProxiedSites cfg) as [p|] eqn:E; [|done].
  by destruct (0 <? len (proxiedsites.Cloud p)).
Qed.

Lemma over_idem {A} (d : option A) x : yaml.over d (yaml.over d x) = yaml.over d x.
Proof. by destruct d. Qed.
Lemma over_ptr_idem {A} (d : option A) x :
  yaml.over_ptr d (yaml.over_ptr d x) = yaml.over_ptr d x.
Proof. by destruct d. Qed.
Lemma over_slice_idem {A} (d : option (list A)) x :
  yaml.over_slice d (yaml.over_slice d x) = yaml.over_slice d x.
Proof. by destruct d. Qed.
Lemma apply_Stats_idem d s :
  yaml.nested yaml.apply_Stats d (yaml.nested yaml.apply_Stats d s)
  = yaml.nested yaml.apply_Stats d s.
Proof.
  destruct d as [[a]|]; [|done]. simpl. unfold yaml.apply_Stats. simpl.
  by rewrite over_idem.
Qed.

(** The policy after a second decoding and deduplication is the policy
    after the first. *)
Lemma policy_idem d ps :
  dedup_policy (yaml.nested yaml.apply_ProxiedSites d
                  (dedup_policy (yaml.nested yaml.apply_ProxiedSites d ps)))
  = dedup_policy (yaml.nested yaml.apply_ProxiedSites d ps).
Proof.
  unfold dedup_policy.
  destruct d as [[dd dc]|]; simpl.
  - unfold yaml.apply_ProxiedSites. simpl.
    destruct dc as [l|]; simpl.
    + destruct (0 <? len (Some l)) eqn:E; simpl; rewrite ?E; simpl;
        by rewrite ?over_ptr_idem.
    + destruct (0 <? len (proxiedsites.Cloud (default proxiedsites.zero ps))) eqn:E;
        simpl.
      * destruct (0 <? len (Some (dedup_sorted _))) eqn:E'; simpl;
          by rewrite ?over_ptr_idem, ?dedup_sorted_idem.
      * rewrite E. simpl. by rewrite ?over_ptr_idem.
  - destruct ps as [p|]; simpl; [|done].
    destruct (0 <? len (proxiedsites.Cloud p)) eqn:E; simpl.
    + destruct (0 <? len (Some (dedup_sorted _))) eqn:E'; simpl;
        by rewrite ?dedup_sorted_idem.
    + by rewrite E.
Qed.

Section MergeMore.
Context `{yaml.Codec}.

(** Decoding the same document a second time onto what the merge made of
    the first decoding changes nothing. *)
Lemma apply_cleared_deduplicated doc cfg c :
  Client cfg = Some c →
  deduplicated (yaml.apply doc (cleared (deduplicated (yaml.apply doc (cleared cfg)))))
  = deduplicated (yaml.apply doc (cleared cfg)).
Proof.
  intros Hc.
  apply Config_ext;
    rewrite ?Version_deduplicated, ?CloudConfig_deduplicated,
      ?CloudConfigCA_deduplicated, ?Addr_deduplicated, ?Role_deduplicated,
      ?InstanceId_deduplicated, ?CpuProfile_deduplicated, ?MemProfile_deduplicated,
      ?UIAddr_deduplicated, ?AutoReport_deduplicated, ?AutoLaunch_deduplicated,
      ?Stats_deduplicated, ?Server_deduplicated, ?Client_deduplicated,
      ?TrustedCAs_deduplicated, ?ProxiedSites_deduplicated;
    simpl;
    rewrite ?Version_deduplicated, ?CloudConfig_deduplicated,
      ?CloudConfigCA_deduplicated, ?Addr_deduplicated, ?Role_deduplicated,
      ?InstanceId_deduplicated, ?CpuProfile_deduplicated, ?MemProfile_deduplicated,
      ?UIAddr_deduplicated, ?AutoReport_deduplicated, ?AutoLaunch_deduplicated,
      ?Stats_deduplicated, ?Server_deduplicated, ?Client_deduplicated,
      ?TrustedCAs_deduplicated, ?ProxiedSites_deduplicated;
    simpl;
    rewrite ?over_idem, ?over_ptr_idem, ?apply_Stats_idem, ?policy_idem; try done.
  rewrite Hc. by destruct (yaml.d_Client doc).
Qed.

(** X4. When [updateFrom] returns and when it panics, for every receiver
    and payload: it panics, with a nil dereference, exactly when the
    receiver has no client sub-configuration, or the codec reports no error
    and neither the receiver nor the payload has a proxied-sites policy;
    otherwise it returns, and the error it returns is the codec's, wrapped,
    or none when the codec reports none. *)
Theorem updateFrom_outcome bytes cfg :
  match updateFrom bytes cfg with
  | Panic msg =>
    msg = nil_dereference
    ∧ (Client cfg = None
       ∨ (snd (yaml.decode bytes) = None ∧ ProxiedSites cfg = None
          ∧ yaml.d_ProxiedSites (fst (yaml.decode bytes)) = None))
  | Ok (err, _) =>
    is_Some (Client cfg)
    ∧ err = ErrUnmarshal <$> snd (yaml.decode bytes)
    ∧ (is_Some (snd (yaml.decode bytes)) ∨ is_Some (ProxiedSites cfg)
       ∨ is_Some (yaml.d_ProxiedSites (fst (yaml.decode bytes))))
  end.
Proof.
  destruct (Client cfg) as [c|] eqn:E;
    [|rewrite updateFrom_nil_client by done; split; [done|by left]].
  destruct (yaml.decode bytes) as [doc [e|]] eqn:D; simpl.
  - rewrite (updateFrom_error _ _ c doc e) by done.
    split; [eauto|]. split; [done|]. left. eauto.
  - rewrite (updateFrom_decoded _ _ c doc) by done.
    rewrite ProxiedSites_apply_cleared.
    destruct (ProxiedSites (yaml.apply doc cfg)) as [p|] eqn:Hp.
    + split; [eauto|]. split; [done|]. right.
      apply ProxiedSites_apply_is_Some. rewrite Hp. eauto.
    + split; [done|]. right. split; [done|].
      destruct (ProxiedSites cfg) as [ps|] eqn:Hps,
               (yaml.d_ProxiedSites doc) as [dp|] eqn:Hdp; try done.
      * exfalso. simpl in Hp. rewrite Hdp in Hp. done.
      * exfalso. simpl in Hp. rewrite Hdp, Hps in Hp. done.
      * exfalso. simpl in Hp. rewrite Hdp in Hp. done.
Qed.

(** X5. Merging the same payload a second time changes nothing: when
    [updateFrom] has returned without error, calling it again with the
    same bytes on the configuration it left returns without error and
    leaves that configuration as it is. *)
Theorem merge_same_payload_again bytes cfg cfg' :
  updateFrom bytes cfg = Ok (None, cfg') →
  updateFrom bytes cfg' = Ok (None, cfg').
Proof.
  intros Hrun.
  destruct (Client cfg) as [c|] eqn:E;
    [|by rewrite updateFrom_nil_client in Hrun].
  destruct (yaml.decode bytes) as [doc [e|]] eqn:D;
    [by rewrite (updateFrom_error _ _ c doc e) in Hrun|].
  rewrite (updateFrom_decoded _ _ c doc) in Hrun by done.
  destruct (ProxiedSites (yaml.apply doc (cleared cfg))) as [p|] eqn:Hp; [|done].
  injection Hrun as <-.
  assert (Hc' : is_Some (Client (deduplicated (yaml.apply doc (cleared cfg))))).
  { rewrite Client_deduplicated. unfold cleared. simpl. rewrite E. simpl.
    by destruct (yaml.d_Client doc). }
  destruct Hc' as [c' Hc'].
  rewrite (updateFrom_decoded _ _ c' doc) by done.
  rewrite (apply_cleared_deduplicated doc cfg c) by done.
  assert (Hp' : is_Some (ProxiedSites
            (yaml.apply doc (cleared (deduplicated (yaml.apply doc (cleared cfg))))))).
  { rewrite ProxiedSites_apply_cleared. apply ProxiedSites_apply_is_Some. left.
    rewrite ProxiedSites_deduplicated, Hp. unfold dedup_policy.
    destruct (0 <? len (proxiedsites.Cloud p)); eauto. }
  destruct Hp' as [p' ->]. done.
Qed.

End MergeMore.

Lemma merge_same_payload_again_witness :
  updateFrom (payload payload_cloud) cfg_cloud_merged = Ok (None, cfg_cloud_merged).
Proof.
  apply (merge_same_payload_again (payload payload_cloud) cfg_three_servers).
  reflexivity.
Defined.

(** ** Instances of the statements above *)

Lemma poll_without_url_does_nothing_witness :
  let st := mkStore {[0%nat := set_CloudConfig "" cfg_three_servers]} cache_v1 in
  ∃ mutate,
    pollWithHttpClient 0%nat (λ _, inr resp_200) 7 st
    = Ok ((mutate, cloudPollSleepTime 7, None), st)
    ∧ does_nothing mutate.
Proof.
  intros st.
  apply (poll_without_url_does_nothing 0%nat (λ _, inr resp_200) 7 st
           (set_CloudConfig "" cfg_three_servers)); reflexivity.
Defined.

Lemma poll_by_answer_witness :
  let st := mkStore {[0%nat := cfg_three_servers]} cache_v1 in
  ∃ mutate err st',
    pollWithHttpClient 0%nat conditional_server 7 st
    = Ok ((mutate, cloudPollSleepTime 7, err), st')
    ∧ heap st' = heap st
    ∧ lastCloudConfigETag st' = <[example_url := "v2"]> cache_v1
    ∧ err = None ∧ merges (payload payload_cloud) mutate.
Proof.
  intros st.
  assert (Hne : CloudConfig cfg_three_servers ≠ "") by discriminate.
  assert (Hurl : url_parse_error (CloudConfig cfg_three_servers) = None)
    by reflexivity.
  assert (Hans : ∀ req,
             req_Method req = "GET" → req_URL req = CloudConfig cfg_three_servers →
             req_Header req !! ifNoneMatch
             = (if (etag_of (lastCloudConfigETag st) (CloudConfig cfg_three_servers)
                    =? "")%string
                then None
                else Some (etag_of (lastCloudConfigETag st)
                             (CloudConfig cfg_three_servers))) →
             conditional_server req = inr resp_200).
  { intros req _ _ Hetag. unfold conditional_server.
    change (req_Header req !! ifNoneMatch = Some "v1") in Hetag.
    rewrite Hetag. reflexivity. }
  destruct (poll_by_answer 0%nat conditional_server 7 st cfg_three_servers
              (inr resp_200) eq_refl Hne Hurl Hans)
    as (mutate & err & st' & Hrun & Hheap & Hcase).
  exists mutate, err, st'. split; [exact Hrun|]. split; [exact Hheap|].
  exact Hcase.
Defined.

Lemma merge_forgets_collections_witness :
  updateFrom (payload payload_cloud) (cleared cfg_three_servers)
  = Ok (None, cfg_cloud_merged).
Proof.
  apply (merge_forgets_collections (payload payload_cloud) cfg_three_servers
           (cleared cfg_three_servers)).
  - simpl. eauto.
  - simpl. eauto.
  - reflexivity.
  - reflexivity.
Defined.

Lemma dedup_sorted_any_range_order_witness :
  sort_Strings (foldl (λ acc domain, acc ++ [domain]) [] ["b.com"; "a.com"])
  = dedup_sorted ["b.com"; "a.com"; "a.com"].
Proof.
  apply (dedup_sorted_any_range_order ["b.com"; "a.com"; "a.com"] ["b.com"; "a.com"]).
  vm_compute. apply perm_swap.
Defined.

Lemma jitter_range_covered_witness :
  ∃ draw, 0 ≤ draw < CloudConfigPollInterval ∧ cloudPollSleepTime draw = 45000000000.
Proof. apply (jitter_range_covered 45000000000). lia. Defined.

(** ** More on the bootstrap race *)

Lemma run_app s1 s2 r : run (s1 ++ s2) r = run s1 r ≫= run s2.
Proof.
  revert r. induction s1 as [|a s1 IH]; intros r; simpl; [done|].
  destruct (act a r); simpl; [apply IH|done].
Qed.

(** Every step uses something up: a goroutine returns, or the consumer
    takes its one payload. *)
Lemma act_measure a r r' :
  act a r = Some r' →
  (S (length (running r') + observed r) = length (running r) + observed r')%nat.
Proof.
  destruct a as [i|]; simpl.
  - unfold finish. destruct (running r !! i) as [x|] eqn:Hi; [|done].
    assert (Hlen : (S (length (delete i (running r))) = length (running r))%nat).
    { rewrite length_delete by eauto. apply lookup_lt_Some in Hi. lia. }
    destruct (delivers x) as [body|].
    + unfold once_Do_send. simpl. destruct (once_done r).
      * intros [= <-]. unfold observed. simpl. lia.
      * destruct (decide _); [|done]. intros [= <-]. unfold observed. simpl. lia.
    + intros [= <-]. unfold observed. simpl. lia.
  - unfold receive. destruct (received r) eqn:Hr; [done|].
    destruct (configs r) as [|body rest]; [done|].
    intros [= <-]. unfold observed. rewrite Hr. simpl. lia.
Qed.

Lemma run_measure schedule r r' :
  run schedule r = Some r' →
  (length schedule + length (running r') + observed r
   = length (running r) + observed r')%nat.
Proof.
  revert r. induction schedule as [|a schedule IH]; intros r; simpl.
  - intros [= <-]. lia.
  - destruct (act a r) as [r1|] eqn:Ha; [|done]. intros Hrun.
    apply IH in Hrun. apply act_measure in Ha. lia.
Qed.

Lemma observed_le_1 r : (observed r ≤ 1)%nat.
Proof. unfold observed. destruct (received r); lia. Qed.

(** X9. A run of the race is short: each goroutine returns at most once
    and the consumer receives at most once, so a run from the start has as
    many steps as goroutines have returned, plus one if the consumer has
    its payload; never more than the number of attempts plus one. *)
Theorem race_run_bounded attempts schedule r :
  run schedule (start attempts) = Some r →
  (length schedule + length (running r) = length attempts + observed r)%nat
  ∧ (length schedule ≤ length attempts + 1)%nat.
Proof.
  intros Hrun. apply run_measure in Hrun. simpl in Hrun.
  pose proof (observed_le_1 r).
  replace (observed (start attempts)) with 0%nat in Hrun by reflexivity. lia.
Qed.

Lemma race_run_bounded_witness :
  let schedule := [Finish 1; Finish 2; Receive; Finish 0; Finish 0] in
  let r := mkRace true [] [] (Some (Some (payload "direct"))) in
  (length schedule + length (running r) = length race_attempts + observed r)%nat
  ∧ (length schedule ≤ length race_attempts + 1)%nat.
Proof.
  intros schedule r. apply (race_run_bounded race_attempts schedule r). reflexivity.
Defined.





(** X11. The race cannot get stuck half-way: from every state a run
    reaches, some continuation ends with every goroutine returned and the
    consumer holding its payload or the channel empty; no goroutine is left
    blocked in its send and no payload is left unread in the channel. *)
Theorem race_runs_to_completion attempts schedule r :
  run schedule (start attempts) = Some r →
  ∃ rest r', run (schedule ++ rest) (start attempts) = Some r'
             ∧ terminal r' = true ∧ running r' = [].
Proof.
  remember (length attempts + 1 - length schedule)%nat as fuel eqn:Hfuel.
  revert schedule r Hfuel.
  induction fuel as [fuel IH] using lt_wf_ind. intros schedule r Hfuel Hrun.
  destruct (terminal r) eqn:Ht.
  - exists [], r. rewrite app_nil_r. split; [done|]. split; [done|].
    unfold terminal in Ht. by destruct (running r).
  - destruct (race_progress attempts schedule r Hrun Ht) as (a & r1 & Ha).
    assert (Hrun1 : run (schedule ++ [a]) (start attempts) = Some r1).
    { rewrite run_app, Hrun. simpl. by rewrite Ha. }
    pose proof (run_measure _ _ _ Hrun1) as Hm. simpl in Hm.
    pose proof (observed_le_1 r1).
    replace (observed (start attempts)) with 0%nat in Hm by reflexivity.
    rewrite length_app in Hm. simpl in Hm.
    destruct (IH (length attempts + 1 - length (schedule ++ [a]))%nat)
      with (schedule := schedule ++ [a]) (r := r1)
      as (rest & r' & Hrest & Hterm); [|done|done|].
    { rewrite length_app. simpl. lia. }
    exists (a :: rest), r'. split; [|done].
    by rewrite <- app_assoc in Hrest.
Qed.

Lemma race_runs_to_completion_witness :
  ∃ rest r',
    run ([Finish 1; Finish 2] ++ rest) (start race_attempts) = Some r'
    ∧ terminal r' = true ∧ running r' = [].
Proof.
  apply (race_runs_to_completion race_attempts [Finish 1; Finish 2]
           (mkRace true [Some (payload "direct")]
              [Chained None (Some (payload "one"), None);
               Chained None (Some (payload "three"), None)] None)).
  reflexivity.
Defined.

(** ** More on the defaulting pass *)

Lemma kept_refl p : kept p p.
Proof.
  unfold kept. repeat apply conj; try done.
  intros c Hc. exists c. done.
Qed.

Lemma is_nil_true {A} (o : option A) : is_nil o = true ↔ o = None.
Proof. by destruct o. Qed.

Lemma is_nil_false {A} (o : option A) : is_nil o = false ↔ is_Some o.
Proof.
  destruct o as [x|]; simpl; split; intros Hx; eauto; try done;
    try by destruct Hx.
Qed.

Lemma len_map_zero {V} (m : gmap string V) :
  (len_map (Some m) =? 0) = true → m = ∅.
Proof.
  intros E. apply Z.eqb_eq in E. unfold len_map in E. simpl in E.
  apply map_size_empty_iff. lia.
Qed.

Section DefaultsKept.
Context {builtins : Builtins} {order : ServerOrder}.

Ltac run_step :=
  unfold when_, on_cfg, range_FrontedServers, MasqueradeSets_store,
    Client_read, Client_write, Stats_read, Stats_write,
    ProxiedSites_read, ProxiedSites_write, uuid_New, launcher_CreateLaunchFile,
    mbind, M_bind, bind, mret, M_ret, ret, modify, get, gets, panic;
  simpl.

Ltac props :=
  repeat match goal with
         | H : _ ∧ _ |- _ => destruct H
         | H : (_ =? _)%string = true |- _ => apply String.eqb_eq in H
         | H : (_ =? _)%string = false |- _ => apply String.eqb_neq in H
         | H : is_nil _ = true |- _ => apply is_nil_true in H
         | H : is_nil _ = false |- _ => apply is_nil_false in H
         | H : (is_nil _ || (len _ =? 0)) = true |- _ => apply len_zero_nil in H
         | H : (is_nil ?s || (len ?s =? 0)) = false |- _ =>
           assert (len s ≠ 0)
             by (intros ?Hz; apply len_zero_nil in Hz; congruence);
           clear H
         end.

Ltac kept_step :=
  intros [cfg u l] a [cfg' u' l'] HK; run_step;
  repeat (case_match; simpl in *; simplify_eq; try done);
  intros ?; simplify_eq;
  unfold kept in *; simpl in *; props;
  repeat apply conj; try assumption.

Ltac kept_next := eapply (leaves_seq _ (kept _)).

Ltac kept_use :=
  intros;
  repeat match goal with
         | H : ?A → _, HA : ?A |- _ =>
           match type of A with Prop => specialize (H HA) end
         | H : ∀ x, ?f = Some x → _, E : ?f = Some _ |- _ => specialize (H _ E)
         | H : _ ∧ _ |- _ => destruct H
         | H : ∃ _, _ |- _ => destruct H
         | H : is_Some _ |- _ => destruct H
         | H : (len_map ?x =? 0) = true, E : ?x = Some _ |- _ =>
           rewrite E in H; apply len_map_zero in H
         end;
  simplify_eq/=.

Ltac kept_close :=
  try done; try congruence; eauto;
  try (repeat match goal with
              | H : ?x = None |- context [?x] => rewrite H
              | H : ?x = Some _ |- context [?x] => rewrite H
              end; simpl; first [done | congruence]).

Ltac kept_rest :=
  kept_use; kept_close;
  try (eexists; split; [reflexivity|]; repeat apply conj; kept_use; kept_close).

Lemma kept_applyClientDefaults p0 :
  leaves (λ p, kept p0 p ∧ is_Some (Client (p_cfg p))) applyClientDefaults
         (kept p0).
Proof.
  unfold applyClientDefaults.
  do 8 (eapply (leaves_seq _ (λ p, kept p0 p ∧ is_Some (Client (p_cfg p))));
        [kept_step; kept_rest|]).
  kept_step; kept_rest.
Qed.

Lemma kept_ApplyDefaults p0 : leaves (kept p0) ApplyDefaults (kept p0).
Proof.
  unfold ApplyDefaults.
  eapply (leaves_seq _ (kept p0)); [kept_step; kept_rest|].
  eapply (leaves_seq _ (kept p0)); [kept_step; kept_rest|].
  eapply (leaves_seq _ (kept p0)); [kept_step; kept_rest|].
  eapply (leaves_seq _ (kept p0)); [kept_step; kept_rest|].
  eapply (leaves_seq _ (kept p0)); [kept_step; kept_rest|].
  eapply (leaves_seq _ (kept p0)); [kept_step; kept_rest|].
  eapply (leaves_seq _ (kept p0)); [kept_step; kept_rest|].
  eapply (leaves_seq _ (kept p0)).
  { intros [cfg u l] a [cfg' u' l'] HK.
    unfold when_, on_cfg, gets, mbind, M_bind, bind, mret, M_ret, ret. simpl.
    destruct (Client cfg) as [c|] eqn:Hc; simpl;
      [destruct (Role cfg =? "client")%string; simpl|].
    - apply kept_applyClientDefaults. split; [exact HK|]. simpl. eauto.
    - intros ?; by simplify_eq.
    - intros ?; by simplify_eq. }
  eapply (leaves_seq _ (kept p0)); [kept_step; kept_rest|].
  eapply (leaves_seq _ (kept p0)); [kept_step; kept_rest|].
  kept_step; kept_rest.
Qed.

(** X12. The defaulting pass only fills gaps: when it returns, every
    setting that was made is still there.  The fields it never assigns
    (version, cloud-config CA, the two profile paths, the server
    sub-configuration) are unchanged; role, addresses, cloud-config URL and
    instance identifier are unchanged when they were not empty, and no
    identifier is drawn when there was one; a stats configuration with an
    address, a proxied-sites policy with a cloud list, a non-empty list of
    trusted CAs, and the auto-report and auto-launch flags that were set are
    unchanged, and no launch file is created when auto-launch was set; a
    nil client sub-configuration stays nil (and then neither flag is set
    nor a launch file created); a client sub-configuration keeps its
    chained servers, and its masquerade sets when it had some. *)
Theorem ApplyDefaults_keeps_settings p p' :
  ApplyDefaults p = Ok (tt, p') → kept p p'.
Proof.
  intros Hrun. eapply kept_ApplyDefaults; [|exact Hrun]. apply kept_refl.
Qed.

End DefaultsKept.

(** X13. The defaulting pass does not make [updateFrom] safe to call: it
    never creates the client sub-configuration, so on a configuration
    without one (as [EmptyConfig] makes it) the pass returns, and the merge
    of any payload into what it leaves panics at its first statement. *)
Theorem defaults_then_merge_panics `{Builtins} `{ServerOrder} `{yaml.Codec}
    p p' bytes :
  Client (p_cfg p) = None →
  ApplyDefaults p = Ok (tt, p') →
  updateFrom bytes (p_cfg p') = Panic nil_dereference.
Proof.
  intros Hnil Hrun. apply updateFrom_nil_client.
  assert (HK : kept p p') by (eapply kept_ApplyDefaults; [apply kept_refl|exact Hrun]).
  unfold kept in HK. by apply HK.
Qed.

Lemma defaults_then_merge_panics_witness :
  updateFrom (payload payload_one_server) emptyConfig_defaulted
  = Panic nil_dereference.
Proof.
  apply (@defaults_then_merge_panics example_builtins example_order example_codec
           (mkProcess emptyConfig 0 []) (mkProcess emptyConfig_defaulted 1 [])
           (payload payload_one_server));
    reflexivity.
Defined.

Lemma ApplyDefaults_keeps_settings_witness :
  kept (mkProcess cfg_bare 0 []) (mkProcess cfg_bare_defaulted 1 [true]).
Proof.
  apply (@ApplyDefaults_keeps_settings example_builtins example_order).
  reflexivity.
Defined.

Section DefaultsPost.
Context {builtins : Builtins} {order : ServerOrder}.
Hypothesis uuid_nonempty : ∀ n, uuid_gen n ≠ "".
Hypothesis order_perm : ∀ l, servers_order l ≡ₚ l.
Hypothesis order_idem : ∀ l, servers_order (servers_order l) = servers_order l.

Lemma default_server_fixed s :
  default_server s = s →
  client.QOS s ≠ 0 ∧ client.Weight s ≠ 0 ∧ client.RedialAttempts s ≠ 0.
Proof.
  rewrite default_server_fields. destruct s as [h p ps m mm q w t r]. simpl.
  intros [= Eq Ew Er].
  destruct (q =? 0) eqn:Hq, (w =? 0) eqn:Hw, (r =? 0) eqn:Hr;
    try apply Z.eqb_neq in Hq; try apply Z.eqb_neq in Hw;
    try apply Z.eqb_neq in Hr; subst; try done.
Qed.

(** X14. The defaulting pass leaves a configuration that can run: when it
    returns, role, the two addresses, the cloud-config URL and the
    instance identifier are not empty; there is a stats configuration, a
    proxied-sites policy, and their address and cloud list are the
    built-in ones if they are empty still, as is the list of trusted CAs;
    and a client sub-configuration in the client role has at least one
    masquerade set, a chained-server map, both flags set, and fronted
    servers that are all present, in the order of [SortServers], each with
    a quality of service, a weight and a number of redial attempts other
    than zero.  ([uuid.New] is relied on for a non-empty identifier and
    [SortServers] for an order that sorting again keeps.) *)
Theorem ApplyDefaults_leaves_runnable p p' :
  ApplyDefaults p = Ok (tt, p') →
  Defaulted (p_cfg p')
  ∧ ∀ c l, Client (p_cfg p') = Some c → Role (p_cfg p') = "client" →
           client.FrontedServers c = Some l →
           servers_order l = l
           ∧ Forall (λ o, ∃ s, o = Some s ∧ client.QOS s ≠ 0 ∧ client.Weight s ≠ 0
                               ∧ client.RedialAttempts s ≠ 0) l.
Proof.
  intros Hrun.
  assert (HD : Defaulted (p_cfg p')).
  { apply defaulted_upto_11.
    eapply (leaves_ApplyDefaults uuid_nonempty order_perm order_idem);
      [|exact Hrun].
    apply defaulted_upto_0. }
  split; [exact HD|]. intros c l Hc Hrole Hl.
  destruct HD as (_ & _ & _ & _ & _ & _ & Hcl & _).
  destruct (Hcl c Hc Hrole) as (_ & (l0 & Hl0 & Hset & Hord) & _).
  simplify_eq. split; [done|].
  apply settled_Forall in Hset. eapply Forall_impl; [exact Hset|].
  intros o (s & -> & Hs). exists s. split; [done|]. by apply default_server_fixed.
Qed.

End DefaultsPost.

Lemma ApplyDefaults_leaves_runnable_witness :
  Defaulted cfg_bare_defaulted
  ∧ ∀ c l, Client cfg_bare_defaulted = Some c → Role cfg_bare_defaulted = "client" →
           client.FrontedServers c = Some l →
           servers_order l = l
           ∧ Forall (λ o, ∃ s, o = Some s ∧ client.QOS s ≠ 0 ∧ client.Weight s ≠ 0
                               ∧ client.RedialAttempts s ≠ 0) l.
Proof.
  apply (@ApplyDefaults_leaves_runnable example_builtins example_order
           example_uuid_nonempty example_order_perm example_order_idem
           (mkProcess cfg_bare 0 []) (mkProcess cfg_bare_defaulted 1 [true])).
  reflexivity.
Defined.

(** ** When the defaulting pass returns *)




Lemma runs_weaken {S} (P P' Q Q' : S → Prop) (m : M S unit) :
  runs P m Q → (∀ s, P' s → P s) → (∀ s, Q s → Q' s) → runs P' m Q'.
Proof.
  intros H HP HQ s Hs. destruct (H s (HP s Hs)) as (s' & Hrun & Hq). eauto.
Qed.


Section DefaultsOutcome.
Context {builtins : Builtins} {order : ServerOrder}.

Ltac run_step :=
  unfold when_, on_cfg, range_FrontedServers, MasqueradeSets_store,
    Client_read, Client_write, Stats_read, Stats_write,
    ProxiedSites_read, ProxiedSites_write, uuid_New, launcher_CreateLaunchFile,
    mbind, M_bind, bind, mret, M_ret, ret, modify, get, gets, panic;
  simpl.







(** The statements before the client block return, and leave the client
    sub-configuration alone; the role is ["client"] after them exactly
    when it was empty or ["client"] before. *)








End DefaultsOutcome.

(** ** The configuration files of earlier versions *)

Lemma substring_all (s : string) : String.substring 0 (String.length s) s = s.
Proof. induction s as [|c s IH]; simpl; [done|]. by rewrite IH. Qed.

Lemma substring_after (a b : string) :
  String.substring (String.length a) (String.length b) (a +:+ b) = b.
Proof. induction a as [|c a IH]; simpl; [apply substring_all|exact IH]. Qed.

Lemma string_length_app (a b : string) :
  String.length (a +:+ b) = (String.length a + String.length b)%nat.
Proof. induction a as [|c a IH]; simpl; [done|]. by rewrite IH. Qed.

Lemma HasSuffix_app (a suffix : string) : strings_HasSuffix (a +:+ suffix) suffix = true.
Proof.
  unfold strings_HasSuffix. rewrite string_length_app.
  replace (String.length a + String.length suffix - String.length suffix)%nat
    with (String.length a) by lia.
  rewrite substring_after, String.eqb_refl, andb_true_r.
  apply Nat.leb_le. lia.
Qed.

(** X16. The file name [Init] gives the configuration of any version
    passes the name test of [hasCustomChainedServer]: it begins with
    ["lantern"] and ends with [".yaml"]. *)
Theorem Init_file_name_matches version :
  strings_HasPrefix (Init_file version) "lantern"
  && strings_HasSuffix (Init_file version) ".yaml" = true.
Proof.
  unfold Init_file. apply andb_true_iff. split.
  - reflexivity.
  - change ("lantern-" +:+ version +:+ ".yaml")
      with (("lantern-" +:+ version) +:+ ".yaml").
    apply HasSuffix_app.
Qed.

Section OldConfigs.
Context `{OS} `{yaml.Codec}.

Ltac run_fs :=
  unfold exists_, on_new, rename, yaml.Unmarshal, Client_read,
    mbind, M_bind, bind, mret, M_ret, ret, modify, get, gets, panic;
  simpl.

(** The number of chained servers a document decoded onto [&Config{}]
    leaves. *)
Lemma len_map_decoded (cd : yaml.ClientDoc) :
  len_map (yaml.into_map (yaml.d_ChainedServers cd) None)
  = Z.of_nat (size (default ∅ (yaml.d_ChainedServers cd))).
Proof.
  unfold len_map, yaml.into_map. destruct (yaml.d_ChainedServers cd) as [m|]; simpl;
    [|done].
  by rewrite (right_id_L ∅ (∪)).
Qed.

(** [hasCustomChainedServer] in full: it only reads; it says yes exactly
    for a file of a matching name that can be read and decoded without
    error and has from one to nine chained servers; and it panics on a file
    of a matching name that decodes without error and has no client
    section. *)
Lemma hasCustomChainedServer_outcome configPath name fs :
  match hasCustomChainedServer configPath name fs with
  | Panic msg =>
    msg = nil_dereference
    ∧ strings_HasPrefix name "lantern" && strings_HasSuffix name ".yaml" = true
    ∧ ∃ bytes doc,
        ioutil_ReadFile configPath fs = inr bytes
        ∧ yaml.decode bytes = (doc, None)
        ∧ yaml.d_Client doc = None
  | Ok (b, fs') =>
    fs' = fs
    ∧ (b = true ↔
       strings_HasPrefix name "lantern" && strings_HasSuffix name ".yaml" = true
       ∧ ∃ bytes doc cd,
           ioutil_ReadFile configPath fs = inr bytes
           ∧ yaml.decode bytes = (doc, None)
           ∧ yaml.d_Client doc = Some cd
           ∧ (0 < size (default ∅ (yaml.d_ChainedServers cd)) < 10)%nat)
  end.
Proof.
  unfold hasCustomChainedServer.
  destruct (strings_HasPrefix name "lantern" && strings_HasSuffix name ".yaml")
    eqn:Hname; simpl.
  2:{ split; [done|]. split; [done|]. by intros [? _]. }
  run_fs. destruct (ioutil_ReadFile configPath fs) as [err|bytes] eqn:Hread; simpl.
  { split; [done|]. split; [done|]. by intros [_ (? & ? & ? & ? & _)]. }
  destruct (yaml.decode bytes) as [doc [e|]] eqn:D; simpl.
  { split; [done|]. split; [done|].
    intros [_ (b' & doc' & cd & [= <-] & D' & _)]. congruence. }
  destruct (yaml.d_Client doc) as [cd|] eqn:Hcd; simpl.
  - rewrite len_map_decoded. split; [done|]. split.
    + intros Hb. apply andb_true_iff in Hb as [H1 H2].
      apply Z.ltb_lt in H1, H2. split; [done|].
      exists bytes, doc, cd. repeat split; try done; lia.
    + intros [_ (b' & doc' & cd' & [= <-] & D' & Hcd' & Hsize)].
      rewrite D in D'. simplify_eq.
      apply andb_true_iff. split; apply Z.ltb_lt; lia.
  - split; [done|]. split; [done|]. eauto.
Qed.


(** [isGoodConfig] leaves the file system as it is. *)
Lemma isGoodConfig_reads path fs good fs' :
  isGoodConfig path fs = Ok (good, fs') → fs' = fs.
Proof.
  unfold isGoodConfig. run_fs.
  destruct (os_Stat path fs) as [fi| |err]; simpl; [|by intros [= _ <-]|done].
  pose proof (hasCustomChainedServer_outcome path (os.Name fi) fs) as Hh.
  intros Hrun. rewrite Hrun in Hh. by destruct Hh.
Qed.

(** The loop renames at most once: the file system it leaves is the one it
    found, or the one a successful rename of a good file of the listing to
    the configuration path has made of it, every file listed before that
    one being a directory, not good, or good and impossible to rename. *)
Lemma range_files_effect configDir configPath files fs fs' :
  range_files configDir configPath files fs = Ok (tt, fs') →
  fs' = fs
  ∨ ∃ before file after,
      files = before ++ file :: after
      ∧ os.IsDir file = false
      ∧ isGoodConfig (filepath_Join configDir (os.Name file)) fs = Ok (true, fs)
      ∧ os_Rename (filepath_Join configDir (os.Name file)) configPath fs = inr fs'
      ∧ Forall (λ f, os.IsDir f = true
                     ∨ isGoodConfig (filepath_Join configDir (os.Name f)) fs
                       = Ok (false, fs)
                     ∨ ∃ err, os_Rename (filepath_Join configDir (os.Name f))
                                configPath fs = inl err) before.
Proof.
  induction files as [|file files IH]; simpl.
  - intros [= <-]. by left.
  - destruct (os.IsDir file) eqn:Hdir.
    { intros Hrun. destruct (IH Hrun) as [->|(before & f & after & -> & ?)];
        [by left|right].
      exists (file :: before), f, after. split; [done|].
      repeat (split; [tauto|]). constructor; [by left|tauto]. }
    unfold mbind, M_bind, bind.
    destruct (isGoodConfig (filepath_Join configDir (os.Name file)) fs)
      as [[good fs1]|] eqn:Hgood; [|done].
    pose proof (isGoodConfig_reads _ _ _ _ Hgood) as ->.
    destruct good.
    + unfold rename.
      destruct (os_Rename (filepath_Join configDir (os.Name file)) configPath fs)
        as [err|fs2] eqn:Hren.
      * intros Hrun. destruct (IH Hrun) as [->|(before & f & after & -> & ?)];
          [by left|right].
        exists (file :: before), f, after. split; [done|].
        repeat (split; [tauto|]). constructor; [eauto|tauto].
      * intros [= <-]. right. exists [], file, files. repeat split; try done.
    + intros Hrun. destruct (IH Hrun) as [->|(before & f & after & -> & ?)];
        [by left|right].
      exists (file :: before), f, after. split; [done|].
      repeat (split; [tauto|]). constructor; [eauto|tauto].
Qed.

(** X18. [copyGoodOldConfig] renames at most one file, and only when it
    has to.  When the configuration path is a good configuration already,
    it returns with the file system untouched (and the directory is not
    listed).  Otherwise the file system it leaves is the one it found, or
    the one that a successful [os.Rename] to the configuration path has
    made of it, of a file of the directory listing that is not a directory
    and is a good configuration: the first such file the rename of which
    succeeds. *)
Theorem copyGoodOldConfig_effect configDir configPath fs :
  (isGoodConfig configPath fs = Ok (true, fs) →
   copyGoodOldConfig configDir configPath fs = Ok (tt, fs))
  ∧ ∀ fs',
      copyGoodOldConfig configDir configPath fs = Ok (tt, fs') →
      fs' = fs
      ∨ ∃ files before file after,
          isGoodConfig configPath fs = Ok (false, fs)
          ∧ ioutil_ReadDir configDir fs = inr files
          ∧ files = before ++ file :: after
          ∧ os.IsDir file = false
          ∧ isGoodConfig (filepath_Join configDir (os.Name file)) fs = Ok (true, fs)
          ∧ os_Rename (filepath_Join configDir (os.Name file)) configPath fs = inr fs'
          ∧ Forall (λ f, os.IsDir f = true
                         ∨ isGoodConfig (filepath_Join configDir (os.Name f)) fs
                           = Ok (false, fs)
                         ∨ ∃ err, os_Rename (filepath_Join configDir (os.Name f))
                                    configPath fs = inl err) before.
Proof.
  unfold copyGoodOldConfig, mbind, M_bind, bind. split.
  - by intros ->.
  - intros fs'.
    destruct (isGoodConfig configPath fs) as [[good fs1]|] eqn:Hgood; [|done].
    pose proof (isGoodConfig_reads _ _ _ _ Hgood) as ->.
    destruct good; [intros [= <-]; by left|].
    unfold gets. simpl.
    destruct (ioutil_ReadDir configDir fs) as [err|files] eqn:Hdir;
      [intros [= <-]; by left|].
    intros Hrun.
    destruct (range_files_effect _ _ _ _ _ Hrun)
      as [->|(before & file & after & ? & ? & ? & ? & ?)]; [by left|right].
    exists files, before, file, after. done.
Qed.

End OldConfigs.

(** X19. [InConfigDir] fails in one case only: the directory does not
    exist and [os.MkdirAll] cannot create it; it then returns two empty
    strings and the error.  In every other case, also when [os.Stat] fails
    with an error other than "does not exist", it returns the directory
    (the [configdir] flag, or [appdir.General("Lantern")] when the flag is
    empty), the file joined to it, and no error.  The file system is
    changed by [os.MkdirAll] alone, which is called exactly when [os.Stat]
    says the directory does not exist. *)
Theorem InConfigDir_outcome `{OS} configdir filename fs :
  let cdir := if (configdir =? "")%string then appdir_General "Lantern" else configdir in
  ∃ dir path err fs',
    InConfigDir configdir filename fs = Ok ((dir, path, err), fs')
    ∧ match os_Stat cdir fs, os_MkdirAll cdir fs with
      | os.NotExist, inl cause =>
        dir = "" ∧ path = ""
        ∧ err = Some ("Unable to create configdir at " +:+ cdir +:+ ": " +:+ cause)
        ∧ fs' = fs
      | os.NotExist, inr created =>
        dir = cdir ∧ path = filepath_Join cdir filename ∧ err = None ∧ fs' = created
      | _, _ =>
        dir = cdir ∧ path = filepath_Join cdir filename ∧ err = None ∧ fs' = fs
      end.
Proof.
  intros cdir. unfold InConfigDir. fold cdir.
  unfold mkdirAll, mbind, M_bind, bind, mret, M_ret, ret, gets. simpl.
  destruct (os_Stat cdir fs) as [fi| |e]; simpl.
  - destruct (os_MkdirAll cdir fs); do 4 eexists; (split; [reflexivity|]); done.
  - destruct (os_MkdirAll cdir fs) as [cause|created];
      do 4 eexists; (split; [reflexivity|]); done.
  - destruct (os_MkdirAll cdir fs); do 4 eexists; (split; [reflexivity|]); done.
Qed.


(** After an upgrade from 2.0.0 to 2.0.1: the configuration of 2.0.1 is
    not there, the one of 2.0.0 is good, and it is renamed; the other file
    stays. *)
Example copyGoodOldConfig_example :
  copyGoodOldConfig cfg_dir (in_cfg_dir (Init_file "2.0.1")) fs_after_upgrade
  = Ok (tt, [("lantern-2.0.1.yaml", payload payload_one_server);
             ("notes.txt", payload payload_cloud)]).
Proof. reflexivity. Qed.

(** A file of a matching name without client section makes the check
    panic. *)
Example isGoodConfig_panics_example :
  isGoodConfig (in_cfg_dir "lantern-2.0.0.yaml")
    [("lantern-2.0.0.yaml", payload payload_cloud)]
  = Panic nil_dereference.
Proof. reflexivity. Qed.

(** ** The default fallback by territory *)

Lemma lower_byte_c c :
  String (lower_byte c) "" = "c" ↔ String c "" = "c" ∨ String c "" = "C".
Proof.
  destruct c as [[] [] [] [] [] [] [] []]; vm_compute; split;
    first [discriminate | tauto | intros [?|?]; discriminate].
Qed.

Lemma lower_byte_n c :
  String (lower_byte c) "" = "n" ↔ String c "" = "n" ∨ String c "" = "N".
Proof.
  destruct c as [[] [] [] [] [] [] [] []]; vm_compute; split;
    first [discriminate | tauto | intros [?|?]; discriminate].
Qed.

Lemma ToLower_cn s :
  strings_ToLower s = "cn" ↔ s = "cn" ∨ s = "CN" ∨ s = "Cn" ∨ s = "cN".
Proof.
  split.
  - destruct s as [|c1 [|c2 [|c3 s]]]; simpl; try discriminate.
    intros [= H1 H2].
    assert (E1 : String (lower_byte c1) "" = "c") by by rewrite H1.
    assert (E2 : String (lower_byte c2) "" = "n") by by rewrite H2.
    apply lower_byte_c in E1. apply lower_byte_n in E2.
    destruct E1 as [[= ->]|[= ->]], E2 as [[= ->]|[= ->]]; tauto.
  - intros [->|[->|[->| ->]]]; reflexivity.
Qed.

(** X20. The default fallback is the Japanese data center for the
    territory [cn], in whatever case it is written, and the Dutch one for
    every other territory, also when the territory cannot be detected.
    (For a territory written in ASCII, as territories are.) *)
Theorem defaultRoundRobin_by_territory detected :
  (∀ t, detected = inr t → is_ASCII t = true) →
  defaultRoundRobin detected
  = match detected with
    | inr t =>
      if decide (t ∈ ["cn"; "CN"; "Cn"; "cN"])
      then "jp.fallbacks.getiantem.org"
      else "nl.fallbacks.getiantem.org"
    | inl _ => "nl.fallbacks.getiantem.org"
    end.
Proof.
  intros _. unfold defaultRoundRobin, defaultRoundRobinForTerritory.
  destruct detected as [err|t]; [reflexivity|].
  destruct (strings_ToLower t =? "cn")%string eqn:E.
  - apply String.eqb_eq, ToLower_cn in E.
    rewrite decide_True; [reflexivity|]. rewrite !elem_of_cons. tauto.
  - apply String.eqb_neq in E. rewrite decide_False; [reflexivity|].
    intros Hin. apply E, ToLower_cn.
    rewrite !elem_of_cons, elem_of_nil in Hin. tauto.
Qed.

Lemma defaultRoundRobin_by_territory_witness :
  defaultRoundRobin (inr "CN") = "jp.fallbacks.getiantem.org".
Proof.
  apply (defaultRoundRobin_by_territory (inr "CN")).
  intros t [= <-]. reflexivity.
Defined.

(** ** The major version *)

Lemma append_cons c (a b : string) : String c a +:+ b = String c (a +:+ b).
Proof. reflexivity. Qed.

Lemma append_nil (b : string) : "" +:+ b = b.
Proof. reflexivity. Qed.

Lemma string_app_empty_r (a : string) : a +:+ "" = a.
Proof.
  induction a as [|x a IH]; [done|]. by rewrite append_cons, IH.
Qed.

Lemma string_app_assoc (a b c : string) : (a +:+ b) +:+ c = a +:+ (b +:+ c).
Proof.
  induction a as [|x a IH]; [done|]. by rewrite !append_cons, IH.
Qed.

(** A run of [k] followed by a text that does not begin with [k], when
    what follows the run matches: the repetition takes the whole run. *)
Lemma many_run k next run tail m :
  run ≠ "" → regexp.all k run = true → regexp.starts k tail = false →
  next tail = Some m →
  regexp.many k next (run +:+ tail) = Some (run +:+ m).
Proof.
  intros Hne Hall Htail Hnext. induction run as [|c run IH]; [done|].
  rewrite !append_cons. simpl in *.
  apply andb_true_iff in Hall as [Hc Hall]. rewrite Hc.
  destruct run as [|c' run'].
  - rewrite !append_nil. destruct tail as [|t tail']; simpl in *.
    + by rewrite Hnext.
    + rewrite Htail, Hnext. done.
  - rewrite IH; [done|done|done].
Qed.

(** What a repetition has matched: a run of [k], then what follows. *)
Lemma many_inv k next s m :
  regexp.many k next s = Some m →
  ∃ run tail m',
    s = run +:+ tail ∧ run ≠ "" ∧ regexp.all k run = true
    ∧ next tail = Some m' ∧ m = run +:+ m'.
Proof.
  revert m. induction s as [|c s IH]; intros m; simpl; [done|].
  destruct (regexp.matches k c) eqn:Hc; [|done].
  destruct (regexp.many k next s) as [m1|] eqn:Hmany.
  - intros [= <-]. destruct (IH m1 eq_refl) as (run & tail & m' & -> & Hne & Hall & Hn & ->).
    exists (String c run), tail, m'. rewrite !append_cons. simpl. rewrite Hc.
    repeat split; done.
  - destruct (next s) as [m'|] eqn:Hn; [|done]. intros [= <-].
    exists (String c ""), s, m'. rewrite !append_cons, !append_nil. simpl.
    rewrite Hc. repeat split; done.
Qed.

(** The pattern at the start of a dotted version. *)
Lemma match_here_dotted a b rest :
  a ≠ "" → digits a = true → b ≠ "" → digits b = true →
  regexp.starts regexp.Digit rest = false →
  regexp.match_here r (a +:+ "." +:+ b +:+ rest) = Some (a +:+ "." +:+ b).
Proof.
  intros Ha Hda Hb Hdb Hrest. unfold r. simpl.
  apply many_run; [done|done|done|].
  rewrite !append_cons, !append_nil. simpl.
  rewrite (many_run regexp.Digit _ b rest "");
    [by rewrite string_app_empty_r|done|done|done|done].
Qed.

(** What a pattern of this form has matched: a run, the byte and a
    run. *)
Lemma match_here_inv_byte k1 d k2 s m :
  regexp.match_here [regexp.Many k1; regexp.One (regexp.Byte d); regexp.Many k2] s
  = Some m →
  ∃ a b post,
    a ≠ "" ∧ regexp.all k1 a = true ∧ b ≠ "" ∧ regexp.all k2 b = true
    ∧ m = a +:+ String d b ∧ s = m +:+ post.
Proof.
  simpl. intros Hm.
  apply many_inv in Hm as (a & tail & m' & -> & Ha & Hda & Hnext & ->).
  destruct tail as [|c tail]; [done|].
  destruct (Ascii.eqb d c) eqn:Hdot; [|done].
  apply Ascii.eqb_eq in Hdot as <-.
  destruct (regexp.many k2 (λ _, Some "") tail) as [m''|] eqn:Hb; [|done].
  simpl in Hnext. injection Hnext as <-.
  apply many_inv in Hb as (b & post & e & -> & Hb & Hdb & [= <-] & ->).
  exists a, b, post. rewrite string_app_empty_r.
  repeat split; try done.
  by rewrite string_app_assoc, append_cons.
Qed.

(** What the version pattern has matched: a number, a dot and a number. *)
Lemma match_here_inv s m :
  regexp.match_here r s = Some m →
  ∃ a b post,
    a ≠ "" ∧ digits a = true ∧ b ≠ "" ∧ digits b = true
    ∧ m = a +:+ "." +:+ b ∧ s = m +:+ post.
Proof. apply match_here_inv_byte. Qed.

Lemma FindString_here re s m :
  regexp.match_here re s = Some m → regexp.FindString re s = m.
Proof. intros Hm. destruct s; simpl; by rewrite Hm. Qed.

Lemma majorVersion_shape version :
  majorVersion version = ""
  ∨ ∃ pre major minor post,
      major ≠ "" ∧ digits major = true ∧ minor ≠ "" ∧ digits minor = true
      ∧ majorVersion version = major +:+ "." +:+ minor
      ∧ version = pre +:+ majorVersion version +:+ post.
Proof.
  unfold majorVersion. induction version as [|c version IH].
  - left. reflexivity.
  - destruct (regexp.match_here r (String c version)) as [m|] eqn:Hm.
    + right. rewrite (FindString_here _ _ m Hm).
      apply match_here_inv in Hm as (a & b & post & Ha & Hda & Hb & Hdb & -> & Hs).
      exists "", a, b, post. rewrite append_nil. done.
    + assert (Hstep : regexp.FindString r (String c version)
                      = regexp.FindString r version).
      { simpl. simpl in Hm. by rewrite Hm. }
      rewrite Hstep. destruct IH as [IH|(pre & a & b & post & ? & ? & ? & ? & ? & Hv)];
        [by left|right].
      exists (String c pre), a, b, post. rewrite (append_cons c pre), <- Hv. done.
Qed.

(** X21. The major version of a dotted version: for a version that begins
    with a number, a dot and a number, followed by anything that does not
    go on the second number (["2.0.0-beta"], ["10.4"]), [majorVersion]
    returns the two numbers with the dot (["2.0"], ["10.4"]). *)
Theorem majorVersion_of_dotted major minor rest :
  major ≠ "" → digits major = true →
  minor ≠ "" → digits minor = true →
  regexp.starts regexp.Digit rest = false →
  majorVersion (major +:+ "." +:+ minor +:+ rest) = major +:+ "." +:+ minor.
Proof.
  intros Ha Hda Hb Hdb Hrest. unfold majorVersion.
  apply FindString_here. by apply match_here_dotted.
Qed.

Lemma majorVersion_of_dotted_witness :
  majorVersion "2.0.0-beta" = "2.0".
Proof.
  apply (majorVersion_of_dotted "2" "0" ".0-beta"); done.
Defined.

(** X22. What [majorVersion] returns, for every string: the empty string,
    or a number, a dot and a number that stand in the string as they are
    returned; and taking the major version of a major version changes
    nothing. *)
Theorem majorVersion_result version :
  (majorVersion version = ""
   ∨ ∃ pre major minor post,
       major ≠ "" ∧ digits major = true ∧ minor ≠ "" ∧ digits minor = true
       ∧ majorVersion version = major +:+ "." +:+ minor
       ∧ version = pre +:+ majorVersion version +:+ post)
  ∧ majorVersion (majorVersion version) = majorVersion version.
Proof.
  split; [apply majorVersion_shape|].
  destruct (majorVersion_shape version)
    as [->|(pre & a & b & post & Ha & Hda & Hb & Hdb & -> & _)]; [reflexivity|].
  unfold majorVersion. apply FindString_here.
  pose proof (match_here_dotted a b "" Ha Hda Hb Hdb eq_refl) as Hm.
  by rewrite !string_app_empty_r in Hm.
Qed.
